(** * cyberpink-christmas: the particle tree, its animation loop and the
      gesture classifier, embedded in Rocq.

    A JavaScript [number] is modelled as a real number: the formulas of the
    source are stated over [R], IEEE-754 rounding is not modelled.
    [Math.random] reads a stream of draws held by the world; every
    [THREE.Vector3] is an object of a heap, addressed by its index, so that
    in-place updates ([lerpVectors], [multiplyScalar], [y += ...]) and
    [clone] behave as they do on shared JavaScript objects. *)

From Stdlib Require Import Reals Lra Lia List.
From stdpp Require Import base option list.
Import ListNotations.
Open Scope R_scope.

(* ================================================================= *)
(** * Definitions *)
(* ================================================================= *)

(** ** JavaScript built-ins used by the source *)

(** [a < b] and [a > b] as the booleans JavaScript computes. *)
Definition Rltb (a b : R) : bool := if Rlt_dec a b then true else false.
Definition Rgtb (a b : R) : bool := Rltb b a.

(** [Math.hypot(a, b)]. *)
Definition Math_hypot (a b : R) : R := sqrt (a * a + b * b).

(** [Math.cbrt(x)]: the real cube root, odd in [x]. *)
Definition Math_cbrt (x : R) : R :=
  match total_order_T x 0 with
  | inleft (left _) => - exp (ln (- x) / 3)
  | inleft (right _) => 0
  | inright _ => exp (ln x / 3)
  end.

(** A parameter with a default value: [f(x = d)] called with or without [x]. *)
Definition orDefault (d : R) (x : option R) : R :=
  match x with Some v => v | None => d end.

(** ** three.js objects *)

(** Address of a [Vector3] object in the heap of vectors. *)
Abbreviation loc := nat (only parsing).

Module THREE.

(** The three coordinates of a [Vector3]. *)
Record Vector3 := mkVector3 { x : R; y : R; z : R }.

(** [Vector3.length()]. *)
Definition length (v : Vector3) : R := sqrt (x v * x v + y v * y v + z v * z v).

(** [MathUtils.lerp(x, y, t)] is [(1 - t) * x + t * y]. *)
Definition lerp (a b t : R) : R := (1 - t) * a + t * b.

(** What [this.lerpVectors(v1, v2, alpha)] stores in [this]. *)
Definition lerpVectors (v1 v2 : Vector3) (alpha : R) : Vector3 :=
  mkVector3 (x v1 + (x v2 - x v1) * alpha)
            (y v1 + (y v2 - y v1) * alpha)
            (z v1 + (z v2 - z v1) * alpha).

(** What [this.multiplyScalar(s)] stores in [this]. *)
Definition multiplyScalar (v : Vector3) (s : R) : Vector3 :=
  mkVector3 (x v * s) (y v * s) (z v * s).

(** What [this.setScalar(s)] stores in [this]. *)
Definition setScalar (s : R) : Vector3 := mkVector3 s s s.

(** [Euler] angles (the order is never changed by the source). *)
Record Euler := mkEuler { ex : R; ey : R; ez : R }.

(** A [Matrix4] is kept symbolically: either the zero-filled buffer slot
    of a new [InstancedMesh], or the matrix [compose]d by
    [Object3D.updateMatrix] from a position, a rotation and a scale. *)
Inductive Matrix4 :=
| zeros
| compose (position : Vector3) (rotation : Euler) (scale : Vector3).

(** The part of an [Object3D] the source uses. [position] and [scale]
    are [Vector3] objects of the heap; [matrix] is copied, never shared. *)
Record Object3D := mkObject3D {
  position : loc;
  rotation : Euler;
  scale : loc;
  matrix : Matrix4
}.

(** The part of an [InstancedMesh] the source uses: the buffer of
    instance matrices and its [needsUpdate] flag. *)
Record InstancedMesh := mkInstancedMesh {
  instanceMatrix : list Matrix4;
  needsUpdate : bool
}.

(** [mesh.setMatrixAt(i, m)] copies [m] into slot [i] of the buffer; a
    typed array ignores a write outside its bounds. *)
Definition setMatrixAt (i : nat) (m : Matrix4) (mesh : InstancedMesh) : InstancedMesh :=
  mkInstancedMesh (<[i := m]> (instanceMatrix mesh)) (needsUpdate mesh).

(** [mesh.instanceMatrix.needsUpdate = true]. *)
Definition set_needsUpdate (mesh : InstancedMesh) : InstancedMesh :=
  mkInstancedMesh (instanceMatrix mesh) true.

End THREE.

Abbreviation Vector3 := THREE.Vector3.
Abbreviation mkVector3 := THREE.mkVector3.

(** ** The world of the math utilities: random draws and the vector heap *)

Record World := mkWorld {
  rnd : nat -> R;          (* the values Math.random() returns, in order *)
  draws : nat;             (* how many of them were consumed *)
  objs : list Vector3      (* every Vector3 object created so far *)
}.

(** Computations that draw random numbers and create or update vectors. *)
Definition M (A : Type) : Type := World -> A * World.

Definition ret {A} (a : A) : M A := fun w => (a, w).
Definition bind {A B} (m : M A) (k : A -> M B) : M B :=
  fun w => let r := m w in k (fst r) (snd r).

Notation "'let*' a ':=' c 'in' k" := (bind c (fun a => k))
  (at level 10, a name, c at level 100, k at level 200).

(** [Math.random()]. *)
Definition Math_random : M R :=
  fun w => (rnd w (draws w), mkWorld (rnd w) (S (draws w)) (objs w)).

(** [new THREE.Vector3(x, y, z)]. *)
Definition new_Vector3 (x y z : R) : M loc :=
  fun w => (length (objs w), mkWorld (rnd w) (draws w) (objs w ++ [mkVector3 x y z])).

(** [v.y += d] on the object at [v]. *)
Definition Vector3_add_y (v : loc) (d : R) : M unit :=
  fun w => (tt, mkWorld (rnd w) (draws w)
                  (alter (fun p => mkVector3 (THREE.x p) (THREE.y p + d) (THREE.z p)) v (objs w))).

(** [Array.from({ length: n }).map((_, i) => f(i))]. *)
Fixpoint traverse {A B} (f : A -> M B) (l : list A) : M (list B) :=
  match l with
  | [] => ret []
  | a :: l' => let* b := f a in let* bs := traverse f l' in ret (b :: bs)
  end.

Definition Array_from_map {B} (n : nat) (f : nat -> M B) : M (list B) :=
  traverse f (seq 0 n).

(** ** services/mathUtils *)

(** Helper to generate a random point inside a sphere. *)
Definition getRandomSpherePoint (radius : R) : M loc :=
  let* u := Math_random in
  let* v := Math_random in
  let theta := 2 * PI * u in
  let phi := acos (2 * v - 1) in
  let* c := Math_random in
  let r := Math_cbrt c * radius in
  let sinPhi := sin phi in
  let x := r * sinPhi * cos theta in
  let y := r * sinPhi * sin theta in
  let z := r * cos phi in
  new_Vector3 x y z.

(** Positions for a conical tree shape ([yOffset] defaults to [-2]). *)
Definition getTreePosition (index total radiusBase height : R) (yOffset : option R) : M loc :=
  let yOffset := orDefault (-2) yOffset in
  let goldenAngle := PI * (3 - sqrt 5) in
  let y := (index / total) * height in
  let radiusAtY := radiusBase * (1 - y / height) in
  let theta := index * goldenAngle in
  let* rand := Math_random in
  let rNoise := (rand - 0.5) * 0.5 in
  let finalRadius := Rmax 0 (radiusAtY + rNoise) in
  let x := cos theta * finalRadius in
  let z := sin theta * finalRadius in
  new_Vector3 x (y + yOffset) z.

(** Positions for the ribbon spiral ([yOffset] defaults to [-2]). *)
Definition getRibbonPosition (t radiusBase height turns : R) (yOffset : option R) : M loc :=
  let yOffset := orDefault (-2) yOffset in
  let angle := t * PI * 2 * turns in
  let y := t * height in
  let r := radiusBase * (1 - t) + 0.2 in
  let x := cos angle * r in
  let z := sin angle * r in
  new_Vector3 x (y + yOffset) z.

(** ** types *)

Inductive AppMode := TREE | EXPLODE.

#[export] Instance AppMode_eq_dec : EqDecision AppMode.
Proof. solve_decision. Defined.

Record ParticleData := mkParticleData {
  treePos : loc;
  explodePos : loc;
  scale : R
}.

Record GestureState := mkGestureState {
  isHandDetected : bool;
  isPinching : bool;
  isOpen : bool;
  handPosition : R * R;
  rotationOffset : R
}.

(** [Partial<GestureState>]: each field present or absent. *)
Record PartialGestureState := mkPartial {
  p_isHandDetected : option bool;
  p_isPinching : option bool;
  p_isOpen : option bool;
  p_handPosition : option (R * R);
  p_rotationOffset : option R
}.

(** ** App *)

Record App := mkApp {
  mode : AppMode;
  gestureState : GestureState
}.

(** [useState] initial values. *)
Definition App_init : App :=
  mkApp TREE (mkGestureState false false false (0.5, 0.5) 0).

Definition setMode (f : AppMode -> AppMode) (a : App) : App :=
  mkApp (f (mode a)) (gestureState a).

(** Toggle mode via click. *)
Definition toggleMode (a : App) : App :=
  setMode (fun prev => if decide (prev = TREE) then EXPLODE else TREE) a.

(** [{ ...prev, ...newState }]. *)
Definition spread (prev : GestureState) (newState : PartialGestureState) : GestureState :=
  mkGestureState
    (default (isHandDetected prev) (p_isHandDetected newState))
    (default (isPinching prev) (p_isPinching newState))
    (default (isOpen prev) (p_isOpen newState))
    (default (handPosition prev) (p_handPosition newState))
    (default (rotationOffset prev) (p_rotationOffset newState)).

(** Update gesture state from controller. *)
Definition handleGestureStateChange (newState : PartialGestureState) (a : App) : App :=
  mkApp (mode a) (spread (gestureState a) newState).

(** Update mode from gesture trigger. *)
Definition handleModeTrigger (newMode : AppMode) (a : App) : App :=
  setMode (fun _ => newMode) a.

(** ** components/GestureController *)

(** A landmark of the hand model: normalized image coordinates. *)
Record NormalizedLandmark := mkLandmark { lx : R; ly : R; lz : R }.

Section GestureController.

(** The two props of the component, acting on the state [S] of its parent. *)
Context {S : Type}.
Variable onStateChange : PartialGestureState -> S -> S.
Variable onModeTrigger : AppMode -> S -> S.

(** The effect's own variable and the parent's state. *)
Record Controller := mkController {
  lastVideoTime : R;
  parent : S
}.

(** The gesture logic run on the landmarks of the first detected hand.
    [None]: reading a coordinate of a missing landmark throws. *)
Definition gestureLogic (landmarks : list NormalizedLandmark) (s : S) : option S :=
  (* 1. Pinch Detection (Thumb Tip [4] vs Index Tip [8]) *)
  thumbTip ← landmarks !! 4%nat;
  indexTip ← landmarks !! 8%nat;
  let distance := Math_hypot (lx thumbTip - lx indexTip) (ly thumbTip - ly indexTip) in
  let isPinching := Rltb distance 0.08 in
  (* 2. Open Hand Detection (Avg distance of tips from wrist) *)
  wrist ← landmarks !! 0%nat;
  tips ← mapM (fun i : nat => landmarks !! i) [8; 12; 16; 20]%nat;
  let avgDist :=
    fold_left (fun acc t => acc + Math_hypot (lx t - lx wrist) (ly t - ly wrist)) tips 0 / 4 in
  let isOpen := Rgtb avgDist 0.3 && negb isPinching in
  (* 3. Hand Position *)
  palm ← landmarks !! 9%nat;
  let handX := 1.0 - lx palm in
  let handY := ly palm in
  (* Update State *)
  let s := onStateChange
             (mkPartial (Some true) (Some isPinching) (Some isOpen)
                        (Some (handX, handY)) (Some ((handX - 0.5) * 2))) s in
  (* Trigger Modes *)
  let s := if isPinching then onModeTrigger TREE s else s in
  let s := if isOpen then onModeTrigger EXPLODE s else s in
  Some s.

(** One call of [predictWebcam]: [ready] says that the video, the canvas
    and its 2d context exist, [currentTime] is [video.currentTime] and
    [results] is what [detectForVideo] answers for this video frame. *)
Definition predictWebcam (ready : bool) (currentTime : R)
    (results : list (list NormalizedLandmark)) (c : Controller) : option Controller :=
  if negb ready then Some c
  else if Req_dec_T currentTime (lastVideoTime c) then Some c
  else
    match results with
    | landmarks :: _ =>
        s ← gestureLogic landmarks (parent c);
        Some (mkController currentTime s)
    | [] =>
        Some (mkController currentTime
                (onStateChange (mkPartial (Some false) None None None None) (parent c)))
    end.

End GestureController.

Arguments Controller S : clear implicits.

(** ** components/ChristmasTree *)

Definition COUNT_LEAVES : nat := 5000.
Definition COUNT_ORNAMENTS : nat := 1500.
Definition COUNT_RIBBON : nat := 800.
Definition EXPLOSION_RADIUS : R := 15.
Definition TREE_HEIGHT : R := 10.
Definition TREE_RADIUS : R := 3.5.
Definition TREE_Y_OFFSET : R := -3.5.

(** *** Data generation *)

(** 1. Leaves. *)
Definition leavesData_init : M (list ParticleData) :=
  Array_from_map COUNT_LEAVES (fun i =>
    let* treePos := getTreePosition (INR i) (INR COUNT_LEAVES) TREE_RADIUS TREE_HEIGHT
                      (Some TREE_Y_OFFSET) in
    let* explodePos := getRandomSpherePoint EXPLOSION_RADIUS in
    let* rand := Math_random in
    ret (mkParticleData treePos explodePos (rand * 0.15 + 0.05))).

(** 2. Ornaments. *)
Definition ornamentsData_init : M (list ParticleData) :=
  Array_from_map COUNT_ORNAMENTS (fun i =>
    let* treePos := getTreePosition (INR i) (INR COUNT_ORNAMENTS) (TREE_RADIUS * 1.1) TREE_HEIGHT
                      (Some TREE_Y_OFFSET) in
    let* rand := Math_random in
    let* _ := Vector3_add_y treePos (rand - 0.5) in
    let* explodePos := getRandomSpherePoint (EXPLOSION_RADIUS * 1.2) in
    let* rand := Math_random in
    ret (mkParticleData treePos explodePos (rand * 0.05 + 0.02))).

(** 3. Ribbon. *)
Definition ribbonData_init : M (list ParticleData) :=
  Array_from_map COUNT_RIBBON (fun i =>
    let t := INR i / INR COUNT_RIBBON in
    let* treePos := getRibbonPosition t (TREE_RADIUS + 0.2) TREE_HEIGHT 3.5 (Some TREE_Y_OFFSET) in
    let* explodePos := getRandomSpherePoint (EXPLOSION_RADIUS * 1.5) in
    ret (mkParticleData treePos explodePos 0.08)).

(** *** The state of a mounted component *)

Record Scene := mkScene {
  heap : list Vector3;                        (* the Vector3 objects *)
  dummy : THREE.Object3D;                     (* dummy object for calculating matrices *)
  leavesData : list ParticleData;
  ornamentsData : list ParticleData;
  ribbonData : list ParticleData;
  starExplodePos : loc;
  starTreePos : loc;
  transitionRef : R;                          (* 0 = Tree, 1 = Explode *)
  leavesRef : option THREE.InstancedMesh;
  ornamentsRef : option THREE.InstancedMesh;
  ribbonRef : option THREE.InstancedMesh;
  groupRef : option THREE.Object3D;
  starRef : option THREE.Object3D
}.

Definition set_heap (h : list Vector3) (s : Scene) : Scene :=
  mkScene h (dummy s) (leavesData s) (ornamentsData s) (ribbonData s)
    (starExplodePos s) (starTreePos s) (transitionRef s)
    (leavesRef s) (ornamentsRef s) (ribbonRef s) (groupRef s) (starRef s).

Definition set_dummy (d : THREE.Object3D) (s : Scene) : Scene :=
  mkScene (heap s) d (leavesData s) (ornamentsData s) (ribbonData s)
    (starExplodePos s) (starTreePos s) (transitionRef s)
    (leavesRef s) (ornamentsRef s) (ribbonRef s) (groupRef s) (starRef s).

Definition set_transitionRef (t : R) (s : Scene) : Scene :=
  mkScene (heap s) (dummy s) (leavesData s) (ornamentsData s) (ribbonData s)
    (starExplodePos s) (starTreePos s) t
    (leavesRef s) (ornamentsRef s) (ribbonRef s) (groupRef s) (starRef s).

Definition set_leavesRef (m : option THREE.InstancedMesh) (s : Scene) : Scene :=
  mkScene (heap s) (dummy s) (leavesData s) (ornamentsData s) (ribbonData s)
    (starExplodePos s) (starTreePos s) (transitionRef s)
    m (ornamentsRef s) (ribbonRef s) (groupRef s) (starRef s).

Definition set_ornamentsRef (m : option THREE.InstancedMesh) (s : Scene) : Scene :=
  mkScene (heap s) (dummy s) (leavesData s) (ornamentsData s) (ribbonData s)
    (starExplodePos s) (starTreePos s) (transitionRef s)
    (leavesRef s) m (ribbonRef s) (groupRef s) (starRef s).

Definition set_ribbonRef (m : option THREE.InstancedMesh) (s : Scene) : Scene :=
  mkScene (heap s) (dummy s) (leavesData s) (ornamentsData s) (ribbonData s)
    (starExplodePos s) (starTreePos s) (transitionRef s)
    (leavesRef s) (ornamentsRef s) m (groupRef s) (starRef s).

Definition set_groupRef (g : option THREE.Object3D) (s : Scene) : Scene :=
  mkScene (heap s) (dummy s) (leavesData s) (ornamentsData s) (ribbonData s)
    (starExplodePos s) (starTreePos s) (transitionRef s)
    (leavesRef s) (ornamentsRef s) (ribbonRef s) g (starRef s).

Definition set_starRef (g : option THREE.Object3D) (s : Scene) : Scene :=
  mkScene (heap s) (dummy s) (leavesData s) (ornamentsData s) (ribbonData s)
    (starExplodePos s) (starTreePos s) (transitionRef s)
    (leavesRef s) (ornamentsRef s) (ribbonRef s) (groupRef s) g.

(** *** Vector methods on heap objects
    An address always names an object created before; would it not, the
    method leaves the heap as it is. *)

(** [this.lerpVectors(v1, v2, alpha)]. *)
Definition Vector3_lerpVectors (this v1 v2 : loc) (alpha : R) (h : list Vector3) : list Vector3 :=
  match h !! v1, h !! v2 with
  | Some a, Some b => <[this := THREE.lerpVectors a b alpha]> h
  | _, _ => h
  end.

(** [v.clone()]: a new object with the coordinates of [v]. *)
Definition Vector3_clone (v : loc) (h : list Vector3) : loc * list Vector3 :=
  match h !! v with
  | Some a => (length h, h ++ [a])
  | None => (v, h)
  end.

(** [this.multiplyScalar(k)]. *)
Definition Vector3_multiplyScalar (this : loc) (k : R) (h : list Vector3) : list Vector3 :=
  alter (fun a => THREE.multiplyScalar a k) this h.

(** [this.setScalar(k)]. *)
Definition Vector3_setScalar (this : loc) (k : R) (h : list Vector3) : list Vector3 :=
  <[this := THREE.setScalar k]> h.

(** [o.rotation.set(x, y, z)], [o.rotation.y = a], [o.rotation.z = a]. *)
Definition rotation_set (x y z : R) (o : THREE.Object3D) : THREE.Object3D :=
  THREE.mkObject3D (THREE.position o) (THREE.mkEuler x y z) (THREE.scale o) (THREE.matrix o).

Definition rotation_set_y (a : R) (o : THREE.Object3D) : THREE.Object3D :=
  rotation_set (THREE.ex (THREE.rotation o)) a (THREE.ez (THREE.rotation o)) o.

Definition rotation_set_z (a : R) (o : THREE.Object3D) : THREE.Object3D :=
  rotation_set (THREE.ex (THREE.rotation o)) (THREE.ey (THREE.rotation o)) a o.

(** [o.updateMatrix()]: compose the matrix from position, rotation, scale. *)
Definition updateMatrix (h : list Vector3) (o : THREE.Object3D) : THREE.Object3D :=
  match h !! THREE.position o, h !! THREE.scale o with
  | Some p, Some sc =>
      THREE.mkObject3D (THREE.position o) (THREE.rotation o) (THREE.scale o)
        (THREE.compose p (THREE.rotation o) sc)
  | _, _ => o
  end.

(** *** Animation loop *)

(** What one call of the frame callback receives: the props of the
    component, [state.clock.elapsedTime] and [delta]. *)
Record Frame := mkFrame {
  props_mode : AppMode;
  props_gestureRotation : R;
  clock_elapsedTime : R;
  delta : R
}.

(** [xs.forEach((data, i) => body)]. *)
Fixpoint forEach_from {A} (body : A -> nat -> Scene -> Scene) (xs : list A) (i : nat)
    (s : Scene) : Scene :=
  match xs with
  | [] => s
  | a :: xs' => forEach_from body xs' (S i) (body a i s)
  end.

Definition forEach {A} (xs : list A) (body : A -> nat -> Scene -> Scene) : Scene -> Scene :=
  forEach_from body xs 0.

(** The statements on [dummy] shared by the three loops. *)
Definition dummy_position_lerpVectors (v1 v2 : loc) (t : R) (s : Scene) : Scene :=
  set_heap (Vector3_lerpVectors (THREE.position (dummy s)) v1 v2 t (heap s)) s.

Definition dummy_rotation_set (x y z : R) (s : Scene) : Scene :=
  set_dummy (rotation_set x y z (dummy s)) s.

Definition dummy_scale_setScalar (k : R) (s : Scene) : Scene :=
  set_heap (Vector3_setScalar (THREE.scale (dummy s)) k (heap s)) s.

Definition dummy_updateMatrix (s : Scene) : Scene :=
  set_dummy (updateMatrix (heap s) (dummy s)) s.

(** 3. Update Leaves: the body of the loop. The guard of the callback has
    checked the ref, which [leavesRef.current!] relies on. *)
Definition updateLeaf (f : Frame) (t : R) (data : ParticleData) (i : nat) (s : Scene) : Scene :=
  let s := dummy_position_lerpVectors (treePos data) (explodePos data) t s in
  let s := dummy_rotation_set (sin (clock_elapsedTime f * 0.5 + INR i))
                              (cos (clock_elapsedTime f * 0.3 + INR i)) 0 s in
  let s := dummy_scale_setScalar (scale data * (1 - t * 0.5)) s in
  let s := dummy_updateMatrix s in
  set_leavesRef (THREE.setMatrixAt i (THREE.matrix (dummy s)) <$> leavesRef s) s.

(** 4. Update Ornaments: the body of the loop. *)
Definition updateOrnament (f : Frame) (t : R) (data : ParticleData) (i : nat) (s : Scene) : Scene :=
  let s := dummy_position_lerpVectors (treePos data) (explodePos data) t s in
  let s := dummy_rotation_set (clock_elapsedTime f + INR i) (clock_elapsedTime f + INR i) 0 s in
  let s := dummy_scale_setScalar (scale data) s in
  let s := dummy_updateMatrix s in
  set_ornamentsRef (THREE.setMatrixAt i (THREE.matrix (dummy s)) <$> ornamentsRef s) s.

(** 5. Update Ribbon: the body of the loop. *)
Definition updateRibbon (f : Frame) (t : R) (data : ParticleData) (i : nat) (s : Scene) : Scene :=
  (* Ribbon explodes outward faster *)
  let c := Vector3_clone (explodePos data) (heap s) in
  let explodePos := fst c in
  let s := set_heap (Vector3_multiplyScalar explodePos 1.5 (snd c)) s in
  let s := dummy_position_lerpVectors (treePos data) explodePos t s in
  let s := dummy_rotation_set (clock_elapsedTime f * 2 + INR i) (INR i * 0.1) 0 s in
  let s := dummy_scale_setScalar (scale data) s in
  let s := dummy_updateMatrix s in
  set_ribbonRef (THREE.setMatrixAt i (THREE.matrix (dummy s)) <$> ribbonRef s) s.

(** The numbered steps of the callback given to [useFrame]. *)

(** 1. Handle Transition Logic. *)
Definition handleTransition (f : Frame) (s : Scene) : Scene :=
  let target := if decide (props_mode f = EXPLODE) then 1 else 0 in
  (* Smooth Lerp *)
  set_transitionRef (THREE.lerp (transitionRef s) target (delta f * 2.5)) s.

(** 2. Rotate entire group (auto rotate + gesture control). *)
Definition rotateGroup (f : Frame) (group : THREE.Object3D) (s : Scene) : Scene :=
  set_groupRef
    (Some (rotation_set_y (clock_elapsedTime f * 0.1 + props_gestureRotation f * 5) group)) s.

(** 3. Update Leaves. *)
Definition updateLeaves (f : Frame) (t : R) (s : Scene) : Scene :=
  let s := forEach (leavesData s) (updateLeaf f t) s in
  set_leavesRef (THREE.set_needsUpdate <$> leavesRef s) s.

(** 4. Update Ornaments. *)
Definition updateOrnaments (f : Frame) (t : R) (s : Scene) : Scene :=
  let s := forEach (ornamentsData s) (updateOrnament f t) s in
  set_ornamentsRef (THREE.set_needsUpdate <$> ornamentsRef s) s.

(** 5. Update Ribbon. *)
Definition updateRibbons (f : Frame) (t : R) (s : Scene) : Scene :=
  let s := forEach (ribbonData s) (updateRibbon f t) s in
  set_ribbonRef (THREE.set_needsUpdate <$> ribbonRef s) s.

(** 6. Update Star: position, rotation, pulsing scale. *)
Definition updateStar (f : Frame) (t : R) (star : THREE.Object3D) (s : Scene) : Scene :=
  let s := set_heap (Vector3_lerpVectors (THREE.position star)
                       (starTreePos s) (starExplodePos s) t (heap s)) s in
  let star := rotation_set_z (clock_elapsedTime f * 0.5) star in
  let star := rotation_set_y (sin (clock_elapsedTime f) * 0.2) star in
  let s := set_starRef (Some star) s in
  let pulse := 1 + sin (clock_elapsedTime f * 4) * 0.1 in
  let baseScale := 1 - (t * 0.3) in
  set_heap (Vector3_setScalar (THREE.scale star) (pulse * baseScale) (heap s)) s.

(** The callback given to [useFrame]: nothing happens unless the five refs
    are attached. *)
Definition useFrame (f : Frame) (s : Scene) : Scene :=
  match leavesRef s, ornamentsRef s, ribbonRef s, groupRef s, starRef s with
  | Some _, Some _, Some _, Some group, Some star =>
      let s := handleTransition f s in
      let t := transitionRef s in
      let s := rotateGroup f group s in
      let s := updateLeaves f t s in
      let s := updateOrnaments f t s in
      let s := updateRibbons f t s in
      updateStar f t star s
  | _, _, _, _, _ => s
  end.

(** The frames of a session, oldest first. *)
Definition frames (fs : list Frame) (s : Scene) : Scene :=
  fold_left (fun s f => useFrame f s) fs s.

(** *** Mounting *)

(** [new THREE.Object3D()]: position at the origin, no rotation, unit
    scale, identity matrix. *)
Definition new_Object3D : M THREE.Object3D :=
  let* p := new_Vector3 0 0 0 in
  let* sc := new_Vector3 1 1 1 in
  ret (THREE.mkObject3D p (THREE.mkEuler 0 0 0) sc
         (THREE.compose (mkVector3 0 0 0) (THREE.mkEuler 0 0 0) (mkVector3 1 1 1))).

(** [<instancedMesh args={[undefined, undefined, count]}>]. *)
Definition new_InstancedMesh (count : nat) : THREE.InstancedMesh :=
  THREE.mkInstancedMesh (replicate count THREE.zeros) false.

(** The first render (the hooks in their order) followed by the commit,
    which creates the objects of the JSX tree and attaches them to their
    refs before any frame callback runs. The layout effect that follows
    sets instance colours only and is left out. *)
Definition render : M Scene :=
  let* dummy := new_Object3D in
  let* leaves := leavesData_init in
  let* ornaments := ornamentsData_init in
  let* ribbon := ribbonData_init in
  let* starExplodePos := getRandomSpherePoint (EXPLOSION_RADIUS * 0.8) in
  let* starTreePos := new_Vector3 0 (TREE_HEIGHT + TREE_Y_OFFSET + 0.2) 0 in
  let* group := new_Object3D in
  let* star := new_Object3D in
  fun w =>
    (mkScene (objs w) dummy leaves ornaments ribbon starExplodePos starTreePos 0
       (Some (new_InstancedMesh COUNT_LEAVES))
       (Some (new_InstancedMesh COUNT_ORNAMENTS))
       (Some (new_InstancedMesh COUNT_RIBBON))
       (Some group) (Some star), w).

(** The mounted component, for the draws [random] of [Math.random]. *)
Definition mount (random : nat -> R) : Scene :=
  fst (render (mkWorld random 0 [])).

(** *** What a frame may and may not change *)

(** The two vectors owned by an object. *)
Definition locs_of (o : THREE.Object3D) : list loc := [THREE.position o; THREE.scale o].

(** [ref.current] is not null. *)
Definition attached {A} (ref : option A) : bool :=
  match ref with Some _ => true | None => false end.

(** What is fixed once the component is mounted: the particle data, the two
    positions of the star, which vectors the dummy and the star own, and
    which refs are attached. *)
Definition statics (s : Scene) :=
  (leavesData s, ornamentsData s, ribbonData s, (starExplodePos s, starTreePos s),
   locs_of (dummy s), locs_of <$> starRef s,
   (attached (leavesRef s), attached (ornamentsRef s), attached (ribbonRef s),
    attached (groupRef s))).

(** The vectors a frame writes to: those of the dummy and of the star. *)
Definition writable (s : Scene) : list loc :=
  locs_of (dummy s) ++ default [] (locs_of <$> starRef s).

(** The vectors the particle data refer to. *)
Definition data_locs (data : list ParticleData) : list loc :=
  flat_map (fun d => [treePos d; explodePos d]) data.

(** [s'] differs from [s] at most in the dummy object (its two vectors, its
    rotation and its matrix), in the instance matrices of the meshes, and
    in vectors created after [s]. *)
Definition loop_footprint (s s' : Scene) : Prop :=
  statics s' = statics s /\
  transitionRef s' = transitionRef s /\
  groupRef s' = groupRef s /\
  starRef s' = starRef s /\
  (length (heap s) <= length (heap s'))%nat /\
  forall l : loc, (l < length (heap s))%nat ->
    l <> THREE.position (dummy s) -> l <> THREE.scale (dummy s) ->
    heap s' !! l = heap s !! l.

(** [s'] has the statics of [s], and every vector of [s] that is not
    writable is as it was. *)
Definition frame_footprint (s s' : Scene) : Prop :=
  statics s' = statics s /\
  (length (heap s) <= length (heap s'))%nat /\
  forall l : loc, (l < length (heap s))%nat -> l ∉ writable s -> heap s' !! l = heap s !! l.

(** The guard of the frame callback passes. *)
Definition all_attached (s : Scene) : bool :=
  attached (leavesRef s) && attached (ornamentsRef s) && attached (ribbonRef s)
    && attached (groupRef s) && attached (starRef s).

(** All five refs are attached, the data refer to vectors that exist and
    that no frame writes to, and the dummy owns two distinct vectors. *)
Definition well_formed (s : Scene) : Prop :=
  all_attached s = true /\
  THREE.position (dummy s) <> THREE.scale (dummy s) /\
  (THREE.position (dummy s) < length (heap s))%nat /\
  forall l : loc,
    l ∈ data_locs (leavesData s ++ ornamentsData s ++ ribbonData s) ->
    (l < length (heap s))%nat /\ l ∉ writable s.

(** *** What data generation maintains *)

(** The invariant of the world during data generation: the draws are those
    of [random], and the vectors created before are still there. *)
Definition gen_inv (random : nat -> R) (n : nat) (w : World) : Prop :=
  rnd w = random /\ (n <= length (objs w))%nat.

(** A particle made after the first [n] vectors refers to two vectors
    that exist and are none of these [n]. *)
Definition fresh_particle (n : nat) (w : World) (d : ParticleData) : Prop :=
  (n <= treePos d < length (objs w))%nat /\ (n <= explodePos d < length (objs w))%nat.

(** ** Observing the calls of the gesture controller *)

(** A parent that only records the calls it receives, in order. *)
Inductive Call :=
| StateChange (newState : PartialGestureState)
| ModeTrigger (newMode : AppMode).

Definition record_onStateChange (newState : PartialGestureState) (log : list Call) : list Call :=
  log ++ [StateChange newState].

Definition record_onModeTrigger (newMode : AppMode) (log : list Call) : list Call :=
  log ++ [ModeTrigger newMode].

Definition is_ModeTrigger (c : Call) : bool :=
  match c with ModeTrigger _ => true | StateChange _ => false end.

(** Both gesture signals are reported true by the call. *)
Definition both_signals (c : Call) : bool :=
  match c with
  | StateChange st =>
      bool_decide (p_isPinching st = Some true) && bool_decide (p_isOpen st = Some true)
  | ModeTrigger _ => false
  end.

(** ** Sample inputs *)

(** A world in which every draw of [Math.random] is one half. *)
Definition world0 : World := mkWorld (fun _ => 1 / 2) 0 [].

(** A frame at 60 frames per second, and one that took a whole second. *)
Definition frame60 : Frame := mkFrame EXPLODE 0 0 (1 / 60).
Definition frame_slow : Frame := mkFrame EXPLODE 0 1 1.

(** A landmark in the middle of the image, and the effect's variables
    before the first video frame. *)
Definition centre : NormalizedLandmark := mkLandmark 0.5 0.5 0.

Definition controller0 : Controller App := mkController (-1) App_init.

(** ** App: what the render passes down *)

(** [<ChristmasTree mode={mode} gestureRotation={gestureState.rotationOffset} />]:
    the props of the tree are read off the state of the application; the
    clock values come from the renderer. *)
Definition App_frame (a : App) (elapsedTime delta : R) : Frame :=
  mkFrame (mode a) (rotationOffset (gestureState a)) elapsedTime delta.

(** A component whose refs are not attached: no mesh, no group, no star. *)
Definition scene_detached : Scene :=
  mkScene [mkVector3 0 0 0; mkVector3 1 1 1]
    (THREE.mkObject3D 0 (THREE.mkEuler 0 0 0) 1 THREE.zeros)
    [] [] [] 0 0 (1 / 2) None None None None None.

(** *** What the loops are expected to store *)

(** The matrix of leaf [i]: between its two positions at the transition
    value [t], turned for the sparkle effect, shrunk when exploded. *)
Definition leafMatrix (f : Frame) (t : R) (i : nat) (k : R) (tp ep : Vector3) : THREE.Matrix4 :=
  THREE.compose (THREE.lerpVectors tp ep t)
    (THREE.mkEuler (sin (clock_elapsedTime f * 0.5 + INR i))
                   (cos (clock_elapsedTime f * 0.3 + INR i)) 0)
    (THREE.setScalar (k * (1 - t * 0.5))).

(** The matrix of ornament [i]. *)
Definition ornamentMatrix (f : Frame) (t : R) (i : nat) (k : R) (tp ep : Vector3) : THREE.Matrix4 :=
  THREE.compose (THREE.lerpVectors tp ep t)
    (THREE.mkEuler (clock_elapsedTime f + INR i) (clock_elapsedTime f + INR i) 0)
    (THREE.setScalar k).

(** The matrix of ribbon particle [i]: its exploded position is the stored
    one scaled by 1.5. *)
Definition ribbonMatrix (f : Frame) (t : R) (i : nat) (k : R) (tp ep : Vector3) : THREE.Matrix4 :=
  THREE.compose (THREE.lerpVectors tp (THREE.multiplyScalar ep 1.5) t)
    (THREE.mkEuler (clock_elapsedTime f * 2 + INR i) (INR i * 0.1) 0)
    (THREE.setScalar k).

(** The two vectors of a particle exist in [s] and are not those of the
    dummy. *)
Definition particle_ok (s : Scene) (d : ParticleData) : Prop :=
  ((treePos d < length (heap s))%nat /\
   treePos d <> THREE.position (dummy s) /\ treePos d <> THREE.scale (dummy s)) /\
  ((explodePos d < length (heap s))%nat /\
   explodePos d <> THREE.position (dummy s) /\ explodePos d <> THREE.scale (dummy s)).

(** Each mesh is attached and has one matrix slot per particle of its
    group. *)
Definition sized (s : Scene) : Prop :=
  (exists m, leavesRef s = Some m /\
             length (THREE.instanceMatrix m) = length (leavesData s)) /\
  (exists m, ornamentsRef s = Some m /\
             length (THREE.instanceMatrix m) = length (ornamentsData s)) /\
  (exists m, ribbonRef s = Some m /\
             length (THREE.instanceMatrix m) = length (ribbonData s)).

(** The star owns two distinct vectors that exist, and its two stored
    positions exist and are vectors no frame writes to. *)
Definition star_ok (s : Scene) : Prop :=
  exists star,
    starRef s = Some star /\
    THREE.position star <> THREE.scale star /\
    (THREE.position star < length (heap s))%nat /\
    (THREE.scale star < length (heap s))%nat /\
    (starTreePos s < length (heap s))%nat /\ (starTreePos s ∉ writable s) /\
    (starExplodePos s < length (heap s))%nat /\ (starExplodePos s ∉ writable s).

(** What holds of the scene between two frames of a mounted component. *)
Definition frame_inv (s : Scene) : Prop :=
  well_formed s /\ (THREE.scale (dummy s) < length (heap s))%nat /\ sized s /\ star_ok s.

(** The group is turned about the vertical axis only, and the star is not
    turned about its first axis. *)
Definition upright (s : Scene) : Prop :=
  (exists group, groupRef s = Some group /\
     THREE.ex (THREE.rotation group) = 0 /\ THREE.ez (THREE.rotation group) = 0) /\
  (exists star, starRef s = Some star /\ THREE.ex (THREE.rotation star) = 0).

(** *** Where the generated positions lie *)

(** Distance of a point from the vertical axis. *)
Definition radial (v : Vector3) : R := Math_hypot (THREE.x v) (THREE.z v).

(** Inside the cone of base radius [rb] and height [h] standing at height
    [yo], thickened by the noise of 0.25. *)
Definition in_cone (rb h yo : R) (v : Vector3) : Prop :=
  yo <= THREE.y v < yo + h /\
  radial v <= rb * (1 - (THREE.y v - yo) / h) + 0.25.

(** Between two heights, and within a distance of the axis. *)
Definition in_cylinder (r ylo yhi : R) (v : Vector3) : Prop :=
  ylo <= THREE.y v < yhi /\ radial v <= r.

(** Inside the ball of radius [r] about the origin. *)
Definition in_ball (r : R) (v : Vector3) : Prop := THREE.length v <= r.

(** The two vectors of a particle exist among [vs] and satisfy [tree] and
    [explode]. *)
Definition particle_within (tree explode : Vector3 -> Prop) (vs : list Vector3)
    (d : ParticleData) : Prop :=
  exists tp ep,
    vs !! treePos d = Some tp /\ vs !! explodePos d = Some ep /\ tree tp /\ explode ep.

(** The later world has the draws of the earlier one and still holds its
    vectors, unchanged. *)
Definition keeps (w w' : World) : Prop :=
  rnd w' = rnd w /\ forall (l : loc) v, objs w !! l = Some v -> objs w' !! l = Some v.

(** *** Initial setup (colors) *)

(** The three channels of a [THREE.Color]. *)
Record Color := mkColor { cr : R; cg : R; cb : R }.

(** What [this.lerpColors(c1, c2, alpha)] stores in [this]. *)
Definition Color_lerpColors (c1 c2 : Color) (alpha : R) : Color :=
  mkColor (cr c1 + (cr c2 - cr c1) * alpha)
          (cg c1 + (cg c2 - cg c1) * alpha)
          (cb c1 + (cb c2 - cb c1) * alpha).

(** What [this.copy(c).multiplyScalar(k)] stores in [this]. *)
Definition Color_copy_multiplyScalar (c : Color) (k : R) : Color :=
  mkColor (cr c * k) (cg c * k) (cb c * k).

(** [mesh.setColorAt(i, color)] on a mesh of [count] instances: the buffer
    of instance colours is created on first use, filled with white, and
    the colour is copied into slot [i]. *)
Definition setColorAt (count i : nat) (color : Color) (instanceColor : option (list Color))
    : option (list Color) :=
  Some (<[i := color]> (default (replicate count (mkColor 1 1 1)) instanceColor)).

(** [for (let i = start; i < start + len; i++) body]. *)
Fixpoint for_range {St} (body : nat -> St -> M St) (start len : nat) (st : St) : M St :=
  match len with
  | O => ret st
  | S len' => let* st' := body start st in for_range body (S start) len' st'
  end.

(** The body of the layout effect on the instance colours of the leaves
    and of the ornaments, for the three theme colours as three.js parses
    them. [tempColor] is overwritten before each use; the [needsUpdate]
    flags of the two buffers are left out. *)
Definition setupColors (colorA colorB ornColor : Color)
    (leavesColor ornamentsColor : option (list Color))
    : M (option (list Color) * option (list Color)) :=
  (* Set colors for leaves *)
  let* leavesColor :=
    for_range (fun i instanceColor =>
                 let* rand := Math_random in
                 let tempColor := Color_lerpColors colorA colorB rand in
                 ret (setColorAt COUNT_LEAVES i tempColor instanceColor))
              0 COUNT_LEAVES leavesColor in
  (* Set colors for ornaments *)
  let* ornamentsColor :=
    for_range (fun i instanceColor =>
                 let* rand := Math_random in
                 let tempColor := Color_copy_multiplyScalar ornColor (0.8 + rand * 0.4) in
                 ret (setColorAt COUNT_ORNAMENTS i tempColor instanceColor))
              0 COUNT_ORNAMENTS ornamentsColor in
  ret (leavesColor, ornamentsColor).

(** Each channel of [c] lies between the channels of [c1] and [c2]. *)
Definition Color_between (c1 c2 c : Color) : Prop :=
  Rmin (cr c1) (cr c2) <= cr c <= Rmax (cr c1) (cr c2) /\
  Rmin (cg c1) (cg c2) <= cg c <= Rmax (cg c1) (cg c2) /\
  Rmin (cb c1) (cb c2) <= cb c <= Rmax (cb c1) (cb c2).

(** ** Proof automation *)

(** Membership in a list written out with [++] and [::]. *)
Ltac solve_elem_of := rewrite ?elem_of_app, ?elem_of_cons; simpl; tauto.

(** Goals about the lengths of the heap during data generation. *)
Ltac solve_gen :=
  unfold gen_inv, fresh_particle, bind, ret; simpl;
  rewrite ?length_app, ?length_alter, ?length_app; simpl;
  repeat split; try done; try lia.

(* ================================================================= *)
(** * Theorems *)
(* ================================================================= *)

(** ** Built-ins *)

Lemma Rltb_true a b : Rltb a b = true <-> a < b.
Proof. unfold Rltb. destruct (Rlt_dec a b); split; intros; try done. Qed.

Lemma Rltb_false a b : Rltb a b = false <-> b <= a.
Proof. unfold Rltb. destruct (Rlt_dec a b); split; intros; try done; lra. Qed.

Lemma Math_hypot_nonneg a b : 0 <= Math_hypot a b.
Proof. apply sqrt_pos. Qed.

(** Scaling both coordinates of a unit direction by [r >= 0] gives a point
    at distance [r]. *)
Lemma Math_hypot_polar theta r : 0 <= r -> Math_hypot (cos theta * r) (sin theta * r) = r.
Proof.
  intros Hr. unfold Math_hypot.
  pose proof (sin2_cos2 theta) as Hsc. unfold Rsqr in Hsc.
  replace (cos theta * r * (cos theta * r) + sin theta * r * (sin theta * r))
    with ((sin theta * sin theta + cos theta * cos theta) * (r * r)) by ring.
  rewrite Hsc, Rmult_1_l. by apply sqrt_square.
Qed.

(** [Math_cbrt] is the cube root. *)
Lemma Math_cbrt_cube x : Math_cbrt x * Math_cbrt x * Math_cbrt x = x.
Proof.
  assert (Hpos : forall y, 0 < y -> exp (ln y / 3) * exp (ln y / 3) * exp (ln y / 3) = y).
  { intros y Hy. rewrite <- !exp_plus.
    replace (ln y / 3 + ln y / 3 + ln y / 3) with (ln y) by field.
    by apply exp_ln. }
  unfold Math_cbrt. destruct (total_order_T x 0) as [[Hlt | Heq] | Hgt].
  - assert (H : 0 < - x) by lra. apply Hpos in H.
    set (e := exp (ln (- x) / 3)) in *.
    replace (- e * - e * - e) with (- (e * e * e)) by ring.
    rewrite H. ring.
  - subst. ring.
  - by apply Hpos.
Qed.

Lemma Math_cbrt_unit x : 0 <= x <= 1 -> 0 <= Math_cbrt x <= 1.
Proof.
  intros [H0 H1]. unfold Math_cbrt.
  destruct (total_order_T x 0) as [[Hlt | Heq] | Hgt]; [lra | lra |].
  split; [left; apply exp_pos |].
  rewrite <- exp_0. destruct H1 as [H1 | ->].
  - left. apply exp_increasing. apply ln_increasing in H1; [| done].
    rewrite ln_1 in H1. lra.
  - rewrite ln_1. right. f_equal. field.
Qed.

(** ** The world monad *)

Lemma new_Vector3_lookup a b c w :
  objs (snd (new_Vector3 a b c w)) !! fst (new_Vector3 a b c w) = Some (mkVector3 a b c).
Proof. simpl. rewrite lookup_app_r, Nat.sub_diag; [done | lia]. Qed.

(** ** services/mathUtils *)

(** The point [getRandomSpherePoint] creates lies at distance [r] of the
    origin, whatever the two angles. *)
Lemma sphere_point_length r phi theta :
  0 <= r ->
  THREE.length (mkVector3 (r * sin phi * cos theta) (r * sin phi * sin theta) (r * cos phi)) = r.
Proof.
  intros Hr. unfold THREE.length. simpl.
  pose proof (sin2_cos2 theta) as Ht. pose proof (sin2_cos2 phi) as Hp.
  unfold Rsqr in Ht, Hp.
  replace (r * sin phi * cos theta * (r * sin phi * cos theta) +
           r * sin phi * sin theta * (r * sin phi * sin theta) +
           r * cos phi * (r * cos phi))
    with (r * r * (sin phi * sin phi * (sin theta * sin theta + cos theta * cos theta)
                   + cos phi * cos phi)) by ring.
  rewrite Ht, Rmult_1_r, Hp, Rmult_1_r. by apply sqrt_square.
Qed.

(** C3. For every radius >= 0 and every three draws u, v, c in [0,1] (the
    next three values of [Math.random]), [getRandomSpherePoint radius]
    creates a vector whose Euclidean norm is [cbrt c * radius], hence at
    most [radius]: a point inside the sphere of that radius centred at the
    origin. *)
Theorem getRandomSpherePoint_inside_sphere (radius : R) (w : World) :
  0 <= radius ->
  0 <= rnd w (draws w) <= 1 ->
  0 <= rnd w (S (draws w)) <= 1 ->
  0 <= rnd w (S (S (draws w))) <= 1 ->
  exists p : Vector3,
    objs (snd (getRandomSpherePoint radius w)) !! fst (getRandomSpherePoint radius w) = Some p /\
    THREE.length p = Math_cbrt (rnd w (S (S (draws w)))) * radius /\
    THREE.length p <= radius.
Proof.
  intros Hrad _ _ Hc.
  set (c := rnd w (S (S (draws w)))) in *.
  pose proof (Math_cbrt_unit c Hc) as [Hc0 Hc1].
  eexists. split.
  - unfold getRandomSpherePoint, bind. apply new_Vector3_lookup.
  - simpl. fold c. rewrite sphere_point_length by nra. split; [done | nra].
Qed.

Lemma getRandomSpherePoint_inside_sphere_witness :
  exists p : Vector3,
    objs (snd (getRandomSpherePoint 15 world0)) !! fst (getRandomSpherePoint 15 world0) = Some p /\
    THREE.length p = Math_cbrt (rnd world0 (S (S (draws world0)))) * 15 /\
    THREE.length p <= 15.
Proof.
  apply (getRandomSpherePoint_inside_sphere 15 world0); simpl; lra.
Defined.

(** A quotient [index / total] with [0 <= index < total] lies in [0,1). *)
Lemma ratio_unit index total : 0 <= index < total -> 0 <= index / total < 1.
Proof.
  intros [H0 H1]. assert (Ht : 0 < total) by lra.
  assert (Hi : 0 < / total) by (by apply Rinv_0_lt_compat).
  unfold Rdiv. split.
  - apply Rmult_le_pos; lra.
  - apply (Rmult_lt_compat_r (/ total)) in H1; [| done].
    rewrite Rinv_r in H1; lra.
Qed.

(** C4. For 0 <= index < total, total > 0, height > 0 and radiusBase >= 0,
    [getTreePosition] creates a point whose y-coordinate is
    [(index/total) * height + yOffset] (so [y - yOffset] lies in
    [0, height)), and whose horizontal distance from the vertical axis is
    [max(0, radiusBase * (1 - index/total) + noise)] for the noise
    [(rand - 0.5) * 0.5] in [-0.25, 0.25] of the draw [rand]; that distance
    is non-negative and at most [radiusBase * (1 - index/total) + 0.25]. *)
Theorem getTreePosition_in_cone (index total radiusBase height : R)
    (yOffset : option R) (w : World) :
  0 <= index < total -> 0 < total -> 0 < height -> 0 <= radiusBase ->
  0 <= rnd w (draws w) <= 1 ->
  let res := getTreePosition index total radiusBase height yOffset w in
  let noise := (rnd w (draws w) - 0.5) * 0.5 in
  let yOff := orDefault (-2) yOffset in
  exists p : Vector3,
    objs (snd res) !! fst res = Some p /\
    THREE.y p = index / total * height + yOff /\
    0 <= THREE.y p - yOff < height /\
    -0.25 <= noise <= 0.25 /\
    Math_hypot (THREE.x p) (THREE.z p) = Rmax 0 (radiusBase * (1 - index / total) + noise) /\
    0 <= Math_hypot (THREE.x p) (THREE.z p) <= radiusBase * (1 - index / total) + 0.25.
Proof.
  intros Hidx Htot Hh Hrb Hrand res noise yOff.
  pose proof (ratio_unit index total Hidx) as Hq.
  set (q := index / total) in *.
  eexists. split; [unfold res, getTreePosition, bind; apply new_Vector3_lookup |].
  simpl. fold q noise yOff.
  replace (q * height / height) with q by (field; lra).
  set (fr := Rmax 0 (radiusBase * (1 - q) + noise)).
  assert (Hfr : 0 <= fr) by apply Rmax_l.
  rewrite Math_hypot_polar by done.
  assert (Hn : -0.25 <= noise <= 0.25) by (unfold noise; lra).
  repeat split; try lra; try nra.
  apply Rmax_lub; nra.
Qed.

Lemma getTreePosition_in_cone_witness :
  let res := getTreePosition 1 4 3.5 10 (Some (-3.5)) world0 in
  exists p : Vector3,
    objs (snd res) !! fst res = Some p /\
    THREE.y p = 1 / 4 * 10 + -3.5 /\
    0 <= THREE.y p - -3.5 < 10 /\
    -0.25 <= (1 / 2 - 0.5) * 0.5 <= 0.25 /\
    Math_hypot (THREE.x p) (THREE.z p) = Rmax 0 (3.5 * (1 - 1 / 4) + (1 / 2 - 0.5) * 0.5) /\
    0 <= Math_hypot (THREE.x p) (THREE.z p) <= 3.5 * (1 - 1 / 4) + 0.25.
Proof.
  apply (getTreePosition_in_cone 1 4 3.5 10 (Some (-3.5)) world0); simpl; lra.
Defined.

(** C7. For every t in [0,1], turns, height and yOffset (and a radiusBase
    >= 0), [getRibbonPosition] draws no random number and creates the point
    [(cos(2 pi turns t) * r, t * height + yOffset, sin(2 pi turns t) * r)]
    with [r = radiusBase * (1 - t) + 0.2]: the angle [2 pi turns t] goes
    from 0 to [turns] full turns, the height is linear in [t] from
    [yOffset] to [yOffset + height], and the distance from the axis is
    [r], linear in [t] from [radiusBase + 0.2] down to [0.2]. *)
Theorem getRibbonPosition_spiral (t radiusBase height turns : R)
    (yOffset : option R) (w : World) :
  0 <= t <= 1 -> 0 <= radiusBase ->
  let res := fun t => getRibbonPosition t radiusBase height turns yOffset w in
  let yOff := orDefault (-2) yOffset in
  let angle := fun t => 2 * PI * turns * t in
  let r := fun t => radiusBase * (1 - t) + 0.2 in
  objs (snd (res t)) !! fst (res t)
    = Some (mkVector3 (cos (angle t) * r t) (t * height + yOff) (sin (angle t) * r t)) /\
  draws (snd (res t)) = draws w /\
  (forall p, objs (snd (res t)) !! fst (res t) = Some p ->
     Math_hypot (THREE.x p) (THREE.z p) = r t) /\
  angle 0 = 0 /\ angle 1 = turns * (2 * PI) /\
  0 * height + yOff = yOff /\ 1 * height + yOff = yOff + height /\
  r 0 = radiusBase + 0.2 /\ r 1 = 0.2 /\ 0.2 <= r t <= radiusBase + 0.2.
Proof.
  intros Ht Hrb res yOff angle r.
  assert (Hlook : objs (snd (res t)) !! fst (res t)
    = Some (mkVector3 (cos (angle t) * r t) (t * height + yOff) (sin (angle t) * r t))).
  { unfold res, getRibbonPosition. rewrite new_Vector3_lookup.
    unfold angle, r, yOff.
    by replace (t * PI * 2 * turns) with (2 * PI * turns * t) by ring. }
  split; [exact Hlook |]. split; [done |]. split.
  - intros p Hp. rewrite Hlook in Hp. injection Hp as <-. simpl.
    apply Math_hypot_polar. unfold r. nra.
  - unfold angle, r. repeat split; try lra; nra.
Qed.

Lemma getRibbonPosition_spiral_witness :
  objs (snd (getRibbonPosition (1 / 2) 3.7 10 3.5 (Some (-3.5)) world0))
    !! fst (getRibbonPosition (1 / 2) 3.7 10 3.5 (Some (-3.5)) world0)
  = Some (mkVector3 (cos (2 * PI * 3.5 * (1 / 2)) * (3.7 * (1 - 1 / 2) + 0.2))
                    (1 / 2 * 10 + -3.5)
                    (sin (2 * PI * 3.5 * (1 / 2)) * (3.7 * (1 - 1 / 2) + 0.2))).
Proof.
  apply (getRibbonPosition_spiral (1 / 2) 3.7 10 3.5 (Some (-3.5)) world0); lra.
Defined.

(** ** App *)

Example toggleMode_from_start : mode (toggleMode App_init) = EXPLODE.
Proof. reflexivity. Qed.

(** C5. The mode is one of exactly two states, TREE or EXPLODE, and the
    click-driven toggle maps TREE to EXPLODE and EXPLODE to TREE; applied
    twice it restores the original state of the application, whatever the
    starting mode. *)
Theorem toggleMode_involution :
  (forall m : AppMode, m = TREE \/ m = EXPLODE) /\
  TREE <> EXPLODE /\
  (forall g, mode (toggleMode (mkApp TREE g)) = EXPLODE) /\
  (forall g, mode (toggleMode (mkApp EXPLODE g)) = TREE) /\
  (forall a : App, toggleMode (toggleMode a) = a).
Proof.
  repeat split.
  - intros []; auto.
  - discriminate.
  - intros [[] g]; reflexivity.
Qed.

(** ** components/GestureController *)

(** C2. On a processed video frame (the video time has advanced) in which
    a hand of 21 landmarks is detected, the classifier reports exactly two
    boolean signals to the application: isPinching, true exactly when the
    thumb-tip to index-tip distance is below 0.08, and isOpen, true exactly
    when the average fingertip-to-wrist distance is above 0.3 and the hand
    is not pinching. A true pinch signal sets the mode to TREE, a true
    open-hand signal sets it to EXPLODE, and the mode is left as it is when
    both are false. *)
Theorem predictWebcam_gesture_mapping
    (p0 p1 p2 p3 p4 p5 p6 p7 p8 p9 p10 p11 p12 p13 p14 p15 p16 p17 p18 p19 p20 :
       NormalizedLandmark)
    (others : list (list NormalizedLandmark)) (currentTime : R) (c : Controller App) :
  currentTime <> lastVideoTime c ->
  let hand := [p0; p1; p2; p3; p4; p5; p6; p7; p8; p9; p10;
               p11; p12; p13; p14; p15; p16; p17; p18; p19; p20] in
  let distance := Math_hypot (lx p4 - lx p8) (ly p4 - ly p8) in
  let avgDist := (Math_hypot (lx p8 - lx p0) (ly p8 - ly p0)
                  + Math_hypot (lx p12 - lx p0) (ly p12 - ly p0)
                  + Math_hypot (lx p16 - lx p0) (ly p16 - ly p0)
                  + Math_hypot (lx p20 - lx p0) (ly p20 - ly p0)) / 4 in
  exists app' : App,
    predictWebcam handleGestureStateChange handleModeTrigger true currentTime
      (hand :: others) c = Some (mkController currentTime app') /\
    isHandDetected (gestureState app') = true /\
    (isPinching (gestureState app') = true <-> distance < 0.08) /\
    (isOpen (gestureState app') = true <-> avgDist > 0.3 /\ ~ distance < 0.08) /\
    (isPinching (gestureState app') = true -> mode app' = TREE) /\
    (isOpen (gestureState app') = true -> mode app' = EXPLODE) /\
    (isPinching (gestureState app') = false -> isOpen (gestureState app') = false ->
       mode app' = mode (parent c)).
Proof.
  intros Htime hand distance avgDist.
  unfold predictWebcam. simpl negb. cbv iota.
  destruct (Req_dec_T currentTime (lastVideoTime c)) as [Heq | _]; [done |].
  unfold gestureLogic, hand. simpl.
  fold distance.
  replace ((0 + Math_hypot (lx p8 - lx p0) (ly p8 - ly p0)
           + Math_hypot (lx p12 - lx p0) (ly p12 - ly p0)
           + Math_hypot (lx p16 - lx p0) (ly p16 - ly p0)
           + Math_hypot (lx p20 - lx p0) (ly p20 - ly p0)) / 4)
    with avgDist by (unfold avgDist; field).
  eexists. split; [reflexivity |].
  unfold Rgtb.
  pose proof (Rltb_true distance 0.08) as Hp1.
  pose proof (Rltb_false distance 0.08) as Hp0.
  pose proof (Rltb_true 0.3 avgDist) as Ho1.
  pose proof (Rltb_false 0.3 avgDist) as Ho0.
  destruct (Rltb distance 0.08); destruct (Rltb 0.3 avgDist); simpl;
    intuition (try done; try lra).
Qed.

Lemma predictWebcam_gesture_mapping_witness :
  exists app' : App,
    predictWebcam handleGestureStateChange handleModeTrigger true 0
      ([centre; centre; centre; centre; centre; centre; centre; centre; centre; centre;
        centre; centre; centre; centre; centre; centre; centre; centre; centre; centre;
        centre] :: []) controller0 = Some (mkController 0 app') /\
    isHandDetected (gestureState app') = true.
Proof.
  destruct (predictWebcam_gesture_mapping
              centre centre centre centre centre centre centre centre centre centre centre
              centre centre centre centre centre centre centre centre centre centre
              [] 0 controller0) as (app' & Hrun & Hdet & _).
  - simpl. lra.
  - exists app'. split; [exact Hrun | exact Hdet].
Defined.

(** What the recording parent has logged after the gesture logic ran on a
    hand of 21 landmarks: the state change, then the triggers. [wide] is
    the comparison of the average fingertip distance with 0.3. *)
Lemma gestureLogic_recorded
    (p0 p1 p2 p3 p4 p5 p6 p7 p8 p9 p10 p11 p12 p13 p14 p15 p16 p17 p18 p19 p20 :
       NormalizedLandmark) (log : list Call) :
  exists (pinch wide : bool) (pos : R * R) (rot : R),
    gestureLogic record_onStateChange record_onModeTrigger
      [p0; p1; p2; p3; p4; p5; p6; p7; p8; p9; p10;
       p11; p12; p13; p14; p15; p16; p17; p18; p19; p20] log
    = Some (log ++ StateChange (mkPartial (Some true) (Some pinch) (Some (wide && negb pinch))
                                   (Some pos) (Some rot))
                :: (if pinch then [ModeTrigger TREE] else [])
                ++ (if wide && negb pinch then [ModeTrigger EXPLODE] else [])).
Proof.
  unfold gestureLogic. simpl.
  set (pinch := Rltb _ 0.08). set (wide := Rgtb _ 0.3).
  exists pinch, wide. do 2 eexists.
  unfold record_onStateChange, record_onModeTrigger.
  destruct pinch, wide; simpl; rewrite <- ?app_assoc; reflexivity.
Qed.

(** C9. For every landmark configuration of a detected hand (21
    landmarks), whatever else the call receives: the reported isOpen is the
    conjunction of a comparison with the negation of the reported
    isPinching, so the two gesture signals are never both true in a
    reported state, and one call of [predictWebcam] fires at most one mode
    trigger. *)
Theorem predictWebcam_signals_exclusive
    (p0 p1 p2 p3 p4 p5 p6 p7 p8 p9 p10 p11 p12 p13 p14 p15 p16 p17 p18 p19 p20 :
       NormalizedLandmark)
    (others : list (list NormalizedLandmark)) (ready : bool) (currentTime : R)
    (c : Controller (list Call)) :
  exists (c' : Controller (list Call)) (calls : list Call),
    predictWebcam record_onStateChange record_onModeTrigger ready currentTime
      ([p0; p1; p2; p3; p4; p5; p6; p7; p8; p9; p10;
        p11; p12; p13; p14; p15; p16; p17; p18; p19; p20] :: others) c = Some c' /\
    parent c' = parent c ++ calls /\
    (forall st, StateChange st ∈ calls ->
       exists pinch wide : bool,
         p_isPinching st = Some pinch /\ p_isOpen st = Some (wide && negb pinch)) /\
    Forall (fun call => both_signals call = false) calls /\
    (length (filter (fun call => is_ModeTrigger call = true) calls) <= 1)%nat.
Proof.
  unfold predictWebcam.
  destruct ready; simpl negb; cbv iota.
  2: { exists c, []. rewrite app_nil_r. repeat split; [| constructor | simpl; lia].
       intros st Hst. by apply elem_of_nil in Hst. }
  destruct (Req_dec_T currentTime (lastVideoTime c)) as [_ | _].
  { exists c, []. rewrite app_nil_r. repeat split; [| constructor | simpl; lia].
    intros st Hst. by apply elem_of_nil in Hst. }
  destruct (gestureLogic_recorded p0 p1 p2 p3 p4 p5 p6 p7 p8 p9 p10 p11 p12 p13 p14
              p15 p16 p17 p18 p19 p20 (parent c)) as (pinch & wide & pos & rot & Hrun).
  rewrite Hrun. simpl. eexists _, _. split; [reflexivity |]. split; [reflexivity |].
  split.
  - intros st Hst. exists pinch, wide.
    apply elem_of_cons in Hst as [Heq | Hst]; [by injection Heq as -> |].
    destruct pinch, wide; simpl in Hst;
      repeat (apply elem_of_cons in Hst as [Heq | Hst]; [discriminate Heq |]);
      by apply elem_of_nil in Hst.
  - destruct pinch, wide; simpl; split; repeat constructor; simpl; lia.
Qed.

(** ** components/ChristmasTree: what a frame changes *)

(** *** Vector methods *)

Lemma Vector3_lerpVectors_length this v1 v2 a (h : list Vector3) :
  length (Vector3_lerpVectors this v1 v2 a h) = length h.
Proof.
  unfold Vector3_lerpVectors. destruct (h !! v1), (h !! v2); try done.
  apply length_insert.
Qed.

Lemma Vector3_lerpVectors_other this v1 v2 a (h : list Vector3) (l : loc) :
  l <> this -> Vector3_lerpVectors this v1 v2 a h !! l = h !! l.
Proof.
  intros Hne. unfold Vector3_lerpVectors. destruct (h !! v1), (h !! v2); try done.
  by apply list_lookup_insert_ne.
Qed.

Lemma Vector3_lerpVectors_this this v1 v2 a (h : list Vector3) p q :
  (this < length h)%nat -> h !! v1 = Some p -> h !! v2 = Some q ->
  Vector3_lerpVectors this v1 v2 a h !! this = Some (THREE.lerpVectors p q a).
Proof.
  intros Hlt Hp Hq. unfold Vector3_lerpVectors. rewrite Hp, Hq.
  by apply list_lookup_insert_eq.
Qed.

Lemma Vector3_setScalar_length this k (h : list Vector3) :
  length (Vector3_setScalar this k h) = length h.
Proof. apply length_insert. Qed.

Lemma Vector3_setScalar_other this k (h : list Vector3) (l : loc) :
  l <> this -> Vector3_setScalar this k h !! l = h !! l.
Proof. intros Hne. by apply list_lookup_insert_ne. Qed.

(** The clone scaled in place: every vector that existed before is as it
    was, the stored one included. *)
Lemma clone_multiplyScalar_old v k (h : list Vector3) :
  let c := Vector3_clone v h in
  (length h <= length (Vector3_multiplyScalar (fst c) k (snd c)))%nat /\
  forall l : loc, (l < length h)%nat ->
    Vector3_multiplyScalar (fst c) k (snd c) !! l = h !! l.
Proof.
  unfold Vector3_clone, Vector3_multiplyScalar.
  destruct (h !! v) as [a |] eqn:Hv; simpl.
  - split.
    + rewrite length_alter, length_app. lia.
    + intros l Hl. rewrite list_lookup_alter_ne by lia. by apply lookup_app_l.
  - split.
    + by rewrite length_alter.
    + intros l _. destruct (decide (l = v)) as [-> | Hne].
      * by rewrite list_lookup_alter_eq, Hv.
      * by rewrite list_lookup_alter_ne.
Qed.

(** The clone scaled in place holds the scaled coordinates. *)
Lemma clone_multiplyScalar_new v k (h : list Vector3) a :
  h !! v = Some a ->
  let c := Vector3_clone v h in
  fst c = length h /\
  Vector3_multiplyScalar (fst c) k (snd c) !! fst c = Some (THREE.multiplyScalar a k).
Proof.
  intros Hv. unfold Vector3_clone, Vector3_multiplyScalar. rewrite Hv. simpl.
  split; [done |].
  rewrite list_lookup_alter_eq, lookup_app_r, Nat.sub_diag by lia. done.
Qed.

Lemma locs_of_updateMatrix h o : locs_of (updateMatrix h o) = locs_of o.
Proof.
  unfold updateMatrix.
  by destruct (h !! THREE.position o), (h !! THREE.scale o).
Qed.

Lemma attached_fmap {A B} (g : A -> B) (ref : option A) : attached (g <$> ref) = attached ref.
Proof. by destruct ref. Qed.

(** *** The footprint of the loops *)

Lemma loop_footprint_refl s : loop_footprint s s.
Proof. by repeat split. Qed.

Lemma loop_footprint_dummy_locs s s' :
  loop_footprint s s' ->
  THREE.position (dummy s') = THREE.position (dummy s) /\
  THREE.scale (dummy s') = THREE.scale (dummy s).
Proof.
  intros (Hst & _). unfold statics, locs_of in Hst.
  injection Hst as _ _ _ _ _ Hp Hs _ _ _ _ _. done.
Qed.

Lemma loop_footprint_trans s1 s2 s3 :
  loop_footprint s1 s2 -> loop_footprint s2 s3 -> loop_footprint s1 s3.
Proof.
  intros H12 H23.
  destruct (loop_footprint_dummy_locs _ _ H12) as [Hp Hs].
  destruct H12 as (Hst & Ht & Hg & Hr & Hlen & Hh).
  destruct H23 as (Hst' & Ht' & Hg' & Hr' & Hlen' & Hh').
  repeat split; try congruence; try lia.
  intros l Hl Hp1 Hs1. rewrite Hh' by (try lia; congruence). by apply Hh.
Qed.

(** Replacing the heap by one that agrees with it away from the two
    vectors of the dummy stays within the footprint. *)
Lemma loop_footprint_set_heap s s' (h : list Vector3) :
  loop_footprint s s' ->
  (length (heap s') <= length h)%nat ->
  (forall l : loc, (l < length (heap s'))%nat ->
     l <> THREE.position (dummy s') -> l <> THREE.scale (dummy s') -> h !! l = heap s' !! l) ->
  loop_footprint s (set_heap h s').
Proof.
  intros Hfp Hlen Hsame. eapply loop_footprint_trans; [exact Hfp |].
  by repeat split.
Qed.

Lemma loop_footprint_position_lerpVectors s s' v1 v2 t :
  loop_footprint s s' -> loop_footprint s (dummy_position_lerpVectors v1 v2 t s').
Proof.
  intros Hfp. apply loop_footprint_set_heap; [done | |].
  - by rewrite Vector3_lerpVectors_length.
  - intros l _ Hp _. by apply Vector3_lerpVectors_other.
Qed.

Lemma loop_footprint_scale_setScalar s s' k :
  loop_footprint s s' -> loop_footprint s (dummy_scale_setScalar k s').
Proof.
  intros Hfp. apply loop_footprint_set_heap; [done | |].
  - by rewrite Vector3_setScalar_length.
  - intros l _ _ Hs. by apply Vector3_setScalar_other.
Qed.

Lemma loop_footprint_rotation_set s s' a b c :
  loop_footprint s s' -> loop_footprint s (dummy_rotation_set a b c s').
Proof.
  intros Hfp. eapply loop_footprint_trans; [exact Hfp |]. by repeat split.
Qed.

Lemma loop_footprint_updateMatrix s s' :
  loop_footprint s s' -> loop_footprint s (dummy_updateMatrix s').
Proof.
  intros Hfp. eapply loop_footprint_trans; [exact Hfp |].
  repeat split; try done.
  unfold statics, dummy_updateMatrix. simpl. by rewrite locs_of_updateMatrix.
Qed.

Lemma loop_footprint_set_leavesRef s s' (g : THREE.InstancedMesh -> THREE.InstancedMesh) :
  loop_footprint s s' -> loop_footprint s (set_leavesRef (g <$> leavesRef s') s').
Proof.
  intros Hfp. eapply loop_footprint_trans; [exact Hfp |].
  repeat split; try done. unfold statics. simpl. by rewrite attached_fmap.
Qed.

Lemma loop_footprint_set_ornamentsRef s s' (g : THREE.InstancedMesh -> THREE.InstancedMesh) :
  loop_footprint s s' -> loop_footprint s (set_ornamentsRef (g <$> ornamentsRef s') s').
Proof.
  intros Hfp. eapply loop_footprint_trans; [exact Hfp |].
  repeat split; try done. unfold statics. simpl. by rewrite attached_fmap.
Qed.

Lemma loop_footprint_set_ribbonRef s s' (g : THREE.InstancedMesh -> THREE.InstancedMesh) :
  loop_footprint s s' -> loop_footprint s (set_ribbonRef (g <$> ribbonRef s') s').
Proof.
  intros Hfp. eapply loop_footprint_trans; [exact Hfp |].
  repeat split; try done. unfold statics. simpl. by rewrite attached_fmap.
Qed.

Lemma loop_footprint_clone s s' v k :
  loop_footprint s s' ->
  loop_footprint s
    (set_heap (Vector3_multiplyScalar (fst (Vector3_clone v (heap s'))) k
                 (snd (Vector3_clone v (heap s')))) s').
Proof.
  intros Hfp. destruct (clone_multiplyScalar_old v k (heap s')) as [Hlen Hold].
  apply loop_footprint_set_heap; [done | done |].
  intros l Hl _ _. by apply Hold.
Qed.

Create HintDb footprint.

#[local] Hint Resolve loop_footprint_refl loop_footprint_position_lerpVectors
  loop_footprint_scale_setScalar loop_footprint_rotation_set loop_footprint_updateMatrix
  loop_footprint_set_leavesRef loop_footprint_set_ornamentsRef loop_footprint_set_ribbonRef
  loop_footprint_clone : footprint.

Lemma updateLeaf_footprint f t data i s s' :
  loop_footprint s s' -> loop_footprint s (updateLeaf f t data i s').
Proof. intros. unfold updateLeaf. cbv zeta. auto 10 with footprint. Qed.

Lemma updateOrnament_footprint f t data i s s' :
  loop_footprint s s' -> loop_footprint s (updateOrnament f t data i s').
Proof. intros. unfold updateOrnament. cbv zeta. auto 10 with footprint. Qed.

Lemma updateRibbon_footprint f t data i s s' :
  loop_footprint s s' -> loop_footprint s (updateRibbon f t data i s').
Proof. intros. unfold updateRibbon. cbv zeta. auto 10 with footprint. Qed.

(** A loop stays within the footprint when its body does. *)
Lemma forEach_from_footprint {A} (body : A -> nat -> Scene -> Scene) (xs : list A) :
  (forall a i s s', loop_footprint s s' -> loop_footprint s (body a i s')) ->
  forall i s s', loop_footprint s s' -> loop_footprint s (forEach_from body xs i s').
Proof.
  intros Hbody. induction xs as [| a xs IH]; intros i s s' Hfp; simpl; [done |].
  apply IH. by apply Hbody.
Qed.

Lemma forEach_footprint {A} (body : A -> nat -> Scene -> Scene) (xs : list A) s s' :
  (forall a i s s', loop_footprint s s' -> loop_footprint s (body a i s')) ->
  loop_footprint s s' -> loop_footprint s (forEach xs body s').
Proof. intros Hbody Hfp. by apply forEach_from_footprint. Qed.

Lemma updateLeaves_footprint f t s s' :
  loop_footprint s s' -> loop_footprint s (updateLeaves f t s').
Proof.
  intros. unfold updateLeaves. cbv zeta. apply loop_footprint_set_leavesRef.
  apply forEach_footprint; [apply updateLeaf_footprint | done].
Qed.

Lemma updateOrnaments_footprint f t s s' :
  loop_footprint s s' -> loop_footprint s (updateOrnaments f t s').
Proof.
  intros. unfold updateOrnaments. cbv zeta. apply loop_footprint_set_ornamentsRef.
  apply forEach_footprint; [apply updateOrnament_footprint | done].
Qed.

Lemma updateRibbons_footprint f t s s' :
  loop_footprint s s' -> loop_footprint s (updateRibbons f t s').
Proof.
  intros. unfold updateRibbons. cbv zeta. apply loop_footprint_set_ribbonRef.
  apply forEach_footprint; [apply updateRibbon_footprint | done].
Qed.

(** *** The footprint of a frame *)

Lemma writable_statics s s' : statics s' = statics s -> writable s' = writable s.
Proof.
  intros Hst. unfold writable.
  pose proof (f_equal (fun x => x.1.2) Hst) as Hs.
  pose proof (f_equal (fun x => x.1.1.2) Hst) as Hd.
  simpl in Hs, Hd. by rewrite Hd, Hs.
Qed.

Lemma frame_footprint_refl s : frame_footprint s s.
Proof. by repeat split. Qed.

Lemma frame_footprint_trans s1 s2 s3 :
  frame_footprint s1 s2 -> frame_footprint s2 s3 -> frame_footprint s1 s3.
Proof.
  intros (Hst & Hlen & Hh) (Hst' & Hlen' & Hh').
  repeat split; try congruence; try lia.
  intros l Hl Hw. rewrite Hh'; [by apply Hh | lia |].
  by rewrite (writable_statics _ _ Hst).
Qed.

Lemma loop_footprint_frame s s' : loop_footprint s s' -> frame_footprint s s'.
Proof.
  intros (Hst & _ & _ & _ & Hlen & Hh). repeat split; try done.
  intros l Hl Hw. apply Hh; [done | |]; intros ->; apply Hw;
    unfold writable, locs_of; solve_elem_of.
Qed.

Lemma handleTransition_footprint f s : frame_footprint s (handleTransition f s).
Proof. by repeat split. Qed.

Lemma rotateGroup_footprint f group g s :
  groupRef s = Some g -> frame_footprint s (rotateGroup f group s).
Proof.
  intros Hg. repeat split; try done.
  unfold statics, rotateGroup. simpl. by rewrite Hg.
Qed.

Lemma updateStar_footprint f t star s :
  starRef s = Some star -> frame_footprint s (updateStar f t star s).
Proof.
  intros Hstar. unfold updateStar. cbv zeta. repeat split.
  - unfold statics. simpl. by rewrite Hstar.
  - simpl. by rewrite Vector3_setScalar_length, Vector3_lerpVectors_length.
  - intros l Hl Hw. simpl.
    assert (l <> THREE.position star /\ l <> THREE.scale star) as [Hp Hs].
    { split; intros ->; apply Hw; unfold writable; rewrite Hstar;
        unfold locs_of; simpl; solve_elem_of. }
    rewrite Vector3_setScalar_other by done.
    by apply Vector3_lerpVectors_other.
Qed.

(** One frame leaves the statics and every vector that is not writable as
    they were. *)
Lemma useFrame_footprint f s : frame_footprint s (useFrame f s).
Proof.
  unfold useFrame.
  destruct (leavesRef s) eqn:Hl; [| apply frame_footprint_refl].
  destruct (ornamentsRef s) eqn:Ho; [| apply frame_footprint_refl].
  destruct (ribbonRef s) eqn:Hr; [| apply frame_footprint_refl].
  destruct (groupRef s) as [group |] eqn:Hg; [| apply frame_footprint_refl].
  destruct (starRef s) as [star |] eqn:Hs; [| apply frame_footprint_refl].
  cbv zeta.
  set (s1 := handleTransition f s). set (t := transitionRef s1).
  set (s2 := rotateGroup f group s1).
  set (s5 := updateRibbons f t (updateOrnaments f t (updateLeaves f t s2))).
  assert (H12 : frame_footprint s s2).
  { eapply frame_footprint_trans; [apply handleTransition_footprint |].
    by eapply rotateGroup_footprint. }
  assert (H25 : loop_footprint s2 s5).
  { apply updateRibbons_footprint, updateOrnaments_footprint, updateLeaves_footprint.
    apply loop_footprint_refl. }
  eapply frame_footprint_trans; [exact H12 |].
  eapply frame_footprint_trans; [by apply loop_footprint_frame |].
  apply updateStar_footprint.
  destruct H25 as (_ & _ & _ & -> & _). done.
Qed.

Lemma frames_footprint fs s : frame_footprint s (frames fs s).
Proof.
  revert s. induction fs as [| f fs IH]; intros s; simpl.
  - apply frame_footprint_refl.
  - eapply frame_footprint_trans; [apply useFrame_footprint | apply IH].
Qed.

(** ** components/ChristmasTree: data generation *)

(** The three counts are never unfolded: no proof depends on their value. *)
Opaque COUNT_LEAVES COUNT_ORNAMENTS COUNT_RIBBON.

(** A property [P] of the values made by [f], stable under later calls of
    [f], holds of every element of the array; [I] is an invariant of the
    world. *)
Lemma traverse_stable {A B} (f : A -> M B) (I : World -> Prop) (P : World -> B -> Prop) :
  (forall a w, I w -> I (snd (f a w))) ->
  (forall a w b, I w -> P w b -> P (snd (f a w)) b) ->
  forall xs w b, I w -> P w b -> P (snd (traverse f xs w)) b.
Proof.
  intros HI Hstable. induction xs as [| a xs IH]; intros w b Hw Hb; simpl; [done |].
  apply IH; [by apply HI | by apply Hstable].
Qed.

Lemma traverse_post {A B} (f : A -> M B) (I : World -> Prop) (P : World -> B -> Prop) :
  (forall a w, I w -> I (snd (f a w)) /\ P (snd (f a w)) (fst (f a w))) ->
  (forall a w b, I w -> P w b -> P (snd (f a w)) b) ->
  forall xs w, I w ->
    I (snd (traverse f xs w)) /\ Forall (P (snd (traverse f xs w))) (fst (traverse f xs w)).
Proof.
  intros Hf Hstable. induction xs as [| a xs IH]; intros w Hw; simpl; [by split |].
  destruct (Hf a w Hw) as [Hw' Hb].
  destruct (IH _ Hw') as [Hw'' Hbs].
  split; [done |]. constructor; [| done].
  apply traverse_stable with (I := I); try done. intros a' w' Hw0. by apply Hf.
Qed.

Lemma traverse_length {A B} (f : A -> M B) xs w : length (fst (traverse f xs w)) = length xs.
Proof. revert w. induction xs as [| a xs IH]; intros w; simpl; [done | by rewrite IH]. Qed.

Lemma fresh_particle_mono n w w' d :
  (length (objs w) <= length (objs w'))%nat ->
  fresh_particle n w d -> fresh_particle n w' d.
Proof. unfold fresh_particle. lia. Qed.

Lemma leavesData_init_post random n w :
  gen_inv random n w ->
  gen_inv random n (snd (leavesData_init w)) /\
  Forall (fun d => fresh_particle n (snd (leavesData_init w)) d /\
                   exists k, scale d = random k * 0.15 + 0.05) (fst (leavesData_init w)).
Proof.
  unfold leavesData_init, Array_from_map.
  apply (traverse_post _ (gen_inv random n)
           (fun w d => fresh_particle n w d /\ exists k, scale d = random k * 0.15 + 0.05)).
  - intros i w' [Hr Hn]. solve_gen. eexists. by rewrite Hr.
  - intros i w' d Hw' [Hd Hs]. split; [| done].
    revert Hd. apply fresh_particle_mono. solve_gen.
Qed.

Lemma ornamentsData_init_post random n w :
  gen_inv random n w ->
  gen_inv random n (snd (ornamentsData_init w)) /\
  Forall (fun d => fresh_particle n (snd (ornamentsData_init w)) d /\
                   exists k, scale d = random k * 0.05 + 0.02) (fst (ornamentsData_init w)).
Proof.
  unfold ornamentsData_init, Array_from_map.
  apply (traverse_post _ (gen_inv random n)
           (fun w d => fresh_particle n w d /\ exists k, scale d = random k * 0.05 + 0.02)).
  - intros i w' [Hr Hn]. solve_gen. eexists. by rewrite Hr.
  - intros i w' d Hw' [Hd Hs]. split; [| done].
    revert Hd. apply fresh_particle_mono. solve_gen.
Qed.

Lemma ribbonData_init_post random n w :
  gen_inv random n w ->
  gen_inv random n (snd (ribbonData_init w)) /\
  Forall (fun d => fresh_particle n (snd (ribbonData_init w)) d /\ scale d = 0.08)
         (fst (ribbonData_init w)).
Proof.
  unfold ribbonData_init, Array_from_map.
  apply (traverse_post _ (gen_inv random n)
           (fun w d => fresh_particle n w d /\ scale d = 0.08)).
  - intros i w' [Hr Hn]. solve_gen.
  - intros i w' d Hw' [Hd Hs]. split; [| done].
    revert Hd. apply fresh_particle_mono. solve_gen.
Qed.

(** The generators only add vectors. *)
Lemma leavesData_init_grows w :
  (length (objs w) <= length (objs (snd (leavesData_init w))))%nat.
Proof. by apply (leavesData_init_post (rnd w) (length (objs w)) w). Qed.

Lemma ornamentsData_init_grows w :
  (length (objs w) <= length (objs (snd (ornamentsData_init w))))%nat.
Proof. by apply (ornamentsData_init_post (rnd w) (length (objs w)) w). Qed.

Lemma ribbonData_init_grows w :
  (length (objs w) <= length (objs (snd (ribbonData_init w))))%nat.
Proof. by apply (ribbonData_init_post (rnd w) (length (objs w)) w). Qed.

Lemma leavesData_init_length w : length (fst (leavesData_init w)) = COUNT_LEAVES.
Proof. unfold leavesData_init, Array_from_map. by rewrite traverse_length, length_seq. Qed.

Lemma ornamentsData_init_length w : length (fst (ornamentsData_init w)) = COUNT_ORNAMENTS.
Proof. unfold ornamentsData_init, Array_from_map. by rewrite traverse_length, length_seq. Qed.

Lemma ribbonData_init_length w : length (fst (ribbonData_init w)) = COUNT_RIBBON.
Proof. unfold ribbonData_init, Array_from_map. by rewrite traverse_length, length_seq. Qed.

(** *** The mounted scene *)

Lemma elem_of_data_locs l data :
  l ∈ data_locs data -> exists d, d ∈ data /\ (l = treePos d \/ l = explodePos d).
Proof.
  unfold data_locs. rewrite list_elem_of_In, in_flat_map.
  intros (d & Hd & Hl). exists d. rewrite list_elem_of_In. split; [done |].
  destruct Hl as [<- | [<- | []]]; auto.
Qed.

(** What mounting establishes. The proof abstracts the three generators and
    the three meshes, and keeps of them what the lemmas above say. *)
Lemma mount_spec (random : nat -> R) :
  well_formed (mount random) /\
  transitionRef (mount random) = 0 /\
  Forall (fun d => exists k, scale d = random k * 0.15 + 0.05) (leavesData (mount random)) /\
  Forall (fun d => exists k, scale d = random k * 0.05 + 0.02) (ornamentsData (mount random)) /\
  Forall (fun d => scale d = 0.08) (ribbonData (mount random)) /\
  (length (leavesData (mount random)) = COUNT_LEAVES /\
   length (ornamentsData (mount random)) = COUNT_ORNAMENTS /\
   length (ribbonData (mount random)) = COUNT_RIBBON).
Proof.
  pose proof leavesData_init_length as Ll.
  pose proof ornamentsData_init_length as Lo.
  pose proof ribbonData_init_length as Lr.
  pose proof (leavesData_init_post random 2) as Hl.
  pose proof (ornamentsData_init_post random 2) as Ho.
  pose proof (ribbonData_init_post random 2) as Hr.
  pose proof ornamentsData_init_grows as Go.
  pose proof ribbonData_init_grows as Gr.
  unfold mount, render.
  generalize (new_InstancedMesh COUNT_LEAVES) (new_InstancedMesh COUNT_ORNAMENTS)
             (new_InstancedMesh COUNT_RIBBON).
  revert Ll Lo Lr Hl Ho Hr Go Gr.
  generalize leavesData_init ornamentsData_init ribbonData_init.
  generalize COUNT_LEAVES COUNT_ORNAMENTS COUNT_RIBBON.
  intros nl no nr gl go gr Ll Lo Lr Hl Ho Hr Go Gr ml mo mr.
  unfold bind. simpl.
  set (w1 := mkWorld random 0 _).
  assert (H1 : gen_inv random 2 w1) by (split; [done | simpl; lia]).
  destruct (Hl w1 H1) as [H2 Fl]. specialize (Go (snd (gl w1))). specialize (Ll w1).
  destruct (gl w1) as [leaves w2]. simpl in *.
  destruct (Ho w2 H2) as [H3 Fo]. specialize (Lo w2).
  destruct (go w2) as [ornaments w3]. simpl in *.
  destruct (Hr w3 H3) as [H4 Fr]. specialize (Gr w3). specialize (Lr w3).
  destruct (gr w3) as [ribbon w4]. simpl in *.
  clear Hl Ho Hr.
  split; [| split; [done | split; [| split; [| split; [| done]]]]].
  - unfold well_formed. simpl. split; [done |]. split; [lia |].
    rewrite !length_app. simpl. split; [lia |].
    intros l Hin. apply elem_of_data_locs in Hin as (d & Hd & Hloc).
    assert (Hfresh : fresh_particle 2 w4 d).
    { rewrite !elem_of_app in Hd. destruct Hd as [Hd | [Hd | Hd]].
      - rewrite Forall_forall in Fl. apply Fl in Hd as [Hd _].
        revert Hd. apply fresh_particle_mono. lia.
      - rewrite Forall_forall in Fo. apply Fo in Hd as [Hd _].
        revert Hd. by apply fresh_particle_mono.
      - rewrite Forall_forall in Fr. by apply Fr in Hd as [Hd _]. }
    destruct Hfresh as [Ht He]. split; [lia |].
    unfold writable, locs_of. simpl.
    rewrite !elem_of_cons, elem_of_nil. lia.
  - eapply Forall_impl; [exact Fl |]. by intros d [_ Hd].
  - eapply Forall_impl; [exact Fo |]. by intros d [_ Hd].
  - eapply Forall_impl; [exact Fr |]. by intros d [_ Hd].
Qed.

(** The mounted scene is used through [mount_spec] only. *)
Opaque mount.

(** C10. Every generated particle has a strictly positive, bounded scale:
    when every draw of [Math.random] lies in [0,1), each leaf scale lies in
    [0.05, 0.2), each ornament scale in [0.02, 0.07), and every ribbon
    scale is exactly 0.08. *)
Theorem particle_scales_bounded (random : nat -> R) :
  (forall k, 0 <= random k < 1) ->
  Forall (fun d => 0.05 <= scale d < 0.2) (leavesData (mount random)) /\
  Forall (fun d => 0.02 <= scale d < 0.07) (ornamentsData (mount random)) /\
  Forall (fun d => scale d = 0.08) (ribbonData (mount random)) /\
  Forall (fun d => 0 < scale d)
    (leavesData (mount random) ++ ornamentsData (mount random) ++ ribbonData (mount random)).
Proof.
  intros Hrandom.
  destruct (mount_spec random) as (_ & _ & Hl & Ho & Hr & _).
  assert (Hl' : Forall (fun d => 0.05 <= scale d < 0.2) (leavesData (mount random))).
  { eapply Forall_impl; [exact Hl |]. intros d [k ->]. specialize (Hrandom k). lra. }
  assert (Ho' : Forall (fun d => 0.02 <= scale d < 0.07) (ornamentsData (mount random))).
  { eapply Forall_impl; [exact Ho |]. intros d [k ->]. specialize (Hrandom k). lra. }
  split; [exact Hl' |]. split; [exact Ho' |]. split; [exact Hr |].
  rewrite !Forall_app. split; [| split].
  - eapply Forall_impl; [exact Hl' |]. simpl. intros d Hd. lra.
  - eapply Forall_impl; [exact Ho' |]. simpl. intros d Hd. lra.
  - eapply Forall_impl; [exact Hr |]. simpl. intros d Hd. lra.
Qed.

Lemma particle_scales_bounded_witness :
  Forall (fun d => 0.05 <= scale d < 0.2) (leavesData (mount (fun _ => 1 / 2))).
Proof.
  exact (proj1 (particle_scales_bounded (fun _ => 1 / 2) (fun _ => ltac:(lra)))).
Defined.

(** ** components/ChristmasTree: the transition value *)

Lemma all_attached_statics s s' : statics s' = statics s -> all_attached s' = all_attached s.
Proof.
  intros Hst. unfold all_attached.
  pose proof (f_equal (fun x => x.2) Hst) as Hrefs.
  pose proof (f_equal (fun x => attached x.1.2) Hst) as Hstar.
  simpl in Hrefs, Hstar. rewrite !attached_fmap in Hstar.
  injection Hrefs as -> -> -> ->. by rewrite Hstar.
Qed.

Lemma updateStar_transition f t star s :
  transitionRef (updateStar f t star s) = transitionRef s.
Proof. reflexivity. Qed.

Lemma frames_one f s : frames [f] s = useFrame f s.
Proof. reflexivity. Qed.

(** When the guard passes, the frame stores the interpolated value. *)
Lemma useFrame_transition f s :
  all_attached s = true ->
  transitionRef (useFrame f s)
  = THREE.lerp (transitionRef s) (if decide (props_mode f = EXPLODE) then 1 else 0)
      (delta f * 2.5).
Proof.
  unfold all_attached, useFrame. intros Hatt.
  destruct (leavesRef s), (ornamentsRef s), (ribbonRef s), (groupRef s) as [group |],
    (starRef s) as [star |]; try discriminate Hatt.
  cbv zeta.
  set (s1 := handleTransition f s). set (t := transitionRef s1).
  set (s2 := rotateGroup f group s1).
  assert (H25 : loop_footprint s2
                  (updateRibbons f t (updateOrnaments f t (updateLeaves f t s2)))).
  { apply updateRibbons_footprint, updateOrnaments_footprint, updateLeaves_footprint.
    apply loop_footprint_refl. }
  destruct H25 as (_ & Ht & _).
  rewrite updateStar_transition, Ht. reflexivity.
Qed.

(** Whether the guard passes or not, the stored value is the old one or
    the interpolated one. *)
Lemma useFrame_transition_cases f s :
  transitionRef (useFrame f s) = transitionRef s \/
  transitionRef (useFrame f s)
  = THREE.lerp (transitionRef s) (if decide (props_mode f = EXPLODE) then 1 else 0)
      (delta f * 2.5).
Proof.
  destruct (all_attached s) eqn:Hatt; [right; by apply useFrame_transition |].
  left. unfold all_attached, useFrame in *.
  by destruct (leavesRef s), (ornamentsRef s), (ribbonRef s), (groupRef s), (starRef s).
Qed.

(** In every scene reached from mounting, the guard passes. *)
Lemma frames_all_attached random history :
  all_attached (frames history (mount random)) = true.
Proof.
  destruct (frames_footprint history (mount random)) as (Hst & _).
  rewrite (all_attached_statics _ _ Hst).
  by destruct (mount_spec random) as ((Hatt & _) & _).
Qed.

(** [lerp] moves towards the target by the factor. *)
Lemma lerp_distance old tgt a : THREE.lerp old tgt a - tgt = (1 - a) * (old - tgt).
Proof. unfold THREE.lerp. ring. Qed.

(** The first frame at 60 frames per second in EXPLODE mode moves the
    transition value from 0 to 1/24. *)
Example first_frame_transition :
  transitionRef (frames [frame60] (mount (fun _ => 1 / 2))) = 1 / 24.
Proof.
  destruct (mount_spec (fun _ => 1 / 2)) as ((Hatt & _) & Ht0 & _).
  rewrite frames_one, useFrame_transition, Ht0 by done.
  unfold THREE.lerp. simpl. lra.
Qed.

(** C1. On every animation frame of the mounted component, the transition
    target is 1 exactly when the mode is EXPLODE and 0 exactly when it is
    TREE, and the stored transition value becomes
    [lerp(old, target, delta * 2.5)]; for any smoothing factor in [0,1] the
    interpolated value is no farther from the target than the old value,
    and strictly closer when old differs from target and the factor is
    positive. *)
Theorem useFrame_transition_update (random : nat -> R) (history : list Frame) (f : Frame) :
  let s := frames history (mount random) in
  let target := if decide (props_mode f = EXPLODE) then 1 else 0 in
  (target = 1 <-> props_mode f = EXPLODE) /\
  (target = 0 <-> props_mode f = TREE) /\
  transitionRef (useFrame f s) = THREE.lerp (transitionRef s) target (delta f * 2.5) /\
  (forall old tgt a : R, 0 <= a <= 1 ->
     Rabs (THREE.lerp old tgt a - tgt) <= Rabs (old - tgt) /\
     (old <> tgt -> 0 < a -> Rabs (THREE.lerp old tgt a - tgt) < Rabs (old - tgt))).
Proof.
  intros s target. split; [| split; [| split]].
  - unfold target. destruct (props_mode f); simpl; split; intros; try done; lra.
  - unfold target. destruct (props_mode f); simpl; split; intros; try done; lra.
  - apply useFrame_transition, frames_all_attached.
  - intros old tgt a Ha. rewrite lerp_distance, Rabs_mult.
    rewrite (Rabs_pos_eq (1 - a)) by lra.
    pose proof (Rabs_pos (old - tgt)) as Hpos. split; [nra |].
    intros Hne Hlt. assert (0 < Rabs (old - tgt)) by (apply Rabs_pos_lt; lra). nra.
Qed.

(** C6, as stated, fails: one frame that took a whole second (delta = 1,
    which is >= 0) in EXPLODE mode takes the transition value of the
    freshly mounted scene from 0 to 2.5, outside [0,1]. *)
Lemma transition_overshoots :
  0 <= delta frame_slow /\
  transitionRef (mount (fun _ => 1 / 2)) = 0 /\
  transitionRef (frames [frame_slow] (mount (fun _ => 1 / 2))) = 2.5 /\
  ~ (0 <= transitionRef (frames [frame_slow] (mount (fun _ => 1 / 2))) <= 1).
Proof.
  destruct (mount_spec (fun _ => 1 / 2)) as ((Hatt & _) & Ht0 & _).
  assert (Ht : transitionRef (frames [frame_slow] (mount (fun _ => 1 / 2))) = 2.5).
  { rewrite frames_one, useFrame_transition, Ht0 by done.
    unfold THREE.lerp. simpl. lra. }
  split; [simpl; lra |]. split; [done |]. split; [done |]. rewrite Ht. lra.
Qed.

(** The interpolated value stays between the old value and the target. *)
Lemma lerp_unit old tgt a :
  0 <= old <= 1 -> 0 <= tgt <= 1 -> 0 <= a <= 1 -> 0 <= THREE.lerp old tgt a <= 1.
Proof. intros Ho Ht Ha. unfold THREE.lerp. nra. Qed.

Lemma frames_transition_unit fs s :
  0 <= transitionRef s <= 1 ->
  Forall (fun f => 0 <= delta f <= 0.4) fs ->
  0 <= transitionRef (frames fs s) <= 1.
Proof.
  revert s. induction fs as [| f fs IH]; intros s Hs Hfs; [done |].
  apply Forall_cons in Hfs as [Hf Hfs]. simpl. apply IH; [| done].
  destruct (useFrame_transition_cases f s) as [-> | ->]; [done |].
  apply lerp_unit; [done | | lra].
  destruct (decide (props_mode f = EXPLODE)); lra.
Qed.

(** C6, amended. Starting from its initial value 0, the transition value
    is in [0,1] after every frame, for every sequence of modes and every
    sequence of frame deltas with 0 <= delta <= 0.4, that is, as long as
    the smoothing factor delta * 2.5 is in [0,1]. *)
Theorem transition_stays_in_unit_interval (random : nat -> R) (fs : list Frame) :
  Forall (fun f => 0 <= delta f <= 0.4) fs ->
  transitionRef (mount random) = 0 /\
  forall n : nat, 0 <= transitionRef (frames (take n fs) (mount random)) <= 1.
Proof.
  intros Hfs. destruct (mount_spec random) as (_ & Ht0 & _).
  split; [done |]. intros n. apply frames_transition_unit.
  - rewrite Ht0. lra.
  - by apply Forall_take.
Qed.

Lemma transition_stays_in_unit_interval_witness :
  0 <= transitionRef (frames (take 2 [frame60; frame60]) (mount (fun _ => 1 / 2))) <= 1.
Proof.
  apply (transition_stays_in_unit_interval (fun _ => 1 / 2) [frame60; frame60]).
  repeat constructor; simpl; lra.
Defined.

(** ** components/ChristmasTree: the particle data across frames *)

Lemma statics_data s s' :
  statics s' = statics s ->
  leavesData s' = leavesData s /\ ornamentsData s' = ornamentsData s /\
  ribbonData s' = ribbonData s /\
  THREE.position (dummy s') = THREE.position (dummy s) /\
  THREE.scale (dummy s') = THREE.scale (dummy s).
Proof.
  intros Hst.
  pose proof (f_equal (fun x => x.1.1.1.1.1.1) Hst) as Hl.
  pose proof (f_equal (fun x => x.1.1.1.1.1.2) Hst) as Ho.
  pose proof (f_equal (fun x => x.1.1.1.1.2) Hst) as Hr.
  pose proof (f_equal (fun x => x.1.1.2) Hst) as Hd.
  simpl in Hl, Ho, Hr, Hd. unfold locs_of in Hd. injection Hd as Hp Hs. done.
Qed.

(** Well-formedness is kept by whatever stays within the footprint of a
    frame. *)
Lemma well_formed_footprint s s' :
  well_formed s -> frame_footprint s s' -> well_formed s'.
Proof.
  intros (Hatt & Hne & Hpos & Hdata) (Hst & Hlen & _).
  destruct (statics_data _ _ Hst) as (Hl & Ho & Hr & Hp & Hs).
  unfold well_formed.
  rewrite (all_attached_statics _ _ Hst), (writable_statics _ _ Hst), Hl, Ho, Hr, Hp, Hs.
  split; [done |]. split; [done |]. split; [lia |].
  intros l Hin. destruct (Hdata l Hin) as [Hlt Hw]. split; [lia | done].
Qed.

Lemma frames_well_formed random history : well_formed (frames history (mount random)).
Proof.
  apply (well_formed_footprint (mount random)); [| apply frames_footprint].
  by destruct (mount_spec random) as (Hwf & _).
Qed.

Lemma data_locs_intro d data :
  d ∈ data -> treePos d ∈ data_locs data /\ explodePos d ∈ data_locs data.
Proof.
  intros Hd. unfold data_locs. rewrite !list_elem_of_In, !in_flat_map.
  rewrite list_elem_of_In in Hd. split; exists d; simpl; tauto.
Qed.

(** The ribbon step works on a clone: the stored exploded position keeps
    its coordinates, and the dummy is placed between the tree position and
    the stored exploded position scaled by 1.5. *)
Lemma updateRibbon_on_clone f t d i s :
  well_formed s -> d ∈ ribbonData s ->
  exists tp ep : Vector3,
    heap s !! treePos d = Some tp /\
    heap s !! explodePos d = Some ep /\
    heap (updateRibbon f t d i s) !! explodePos d = Some ep /\
    heap (updateRibbon f t d i s) !! THREE.position (dummy (updateRibbon f t d i s))
    = Some (THREE.lerpVectors tp (THREE.multiplyScalar ep 1.5) t).
Proof.
  intros (Hatt & Hne & Hpos & Hdata) Hd.
  assert (Hd' : d ∈ leavesData s ++ ornamentsData s ++ ribbonData s).
  { rewrite !elem_of_app. auto. }
  apply data_locs_intro in Hd' as [Htree Hexp].
  apply Hdata in Htree as [Htlt Htw]. apply Hdata in Hexp as [Helt Hew].
  destruct (lookup_lt_is_Some_2 _ _ Htlt) as [tp Htp].
  destruct (lookup_lt_is_Some_2 _ _ Helt) as [ep Hep].
  exists tp, ep. split; [done |]. split; [done |].
  pose proof (updateRibbon_footprint f t d i s s (loop_footprint_refl s)) as Hfp.
  destruct (loop_footprint_dummy_locs _ _ Hfp) as [Hp _].
  destruct Hfp as (_ & _ & _ & _ & _ & Hold).
  assert (Hexp_ne : explodePos d <> THREE.position (dummy s) /\
                    explodePos d <> THREE.scale (dummy s)).
  { split; intros Heq; apply Hew; rewrite Heq; unfold writable, locs_of; solve_elem_of. }
  assert (Htree_ne : treePos d <> THREE.position (dummy s)).
  { intros Heq; apply Htw; rewrite Heq; unfold writable, locs_of; solve_elem_of. }
  split; [rewrite Hold by tauto; done |].
  rewrite Hp. unfold updateRibbon. cbv zeta.
  destruct (clone_multiplyScalar_old (explodePos d) 1.5 (heap s)) as [Hlen Hsame].
  destruct (clone_multiplyScalar_new (explodePos d) 1.5 (heap s) ep Hep) as [Hc Hnew].
  cbv zeta in Hlen, Hsame, Hc, Hnew.
  set (c := Vector3_clone (explodePos d) (heap s)) in *.
  set (h2 := Vector3_multiplyScalar (fst c) 1.5 (snd c)) in *.
  change (Vector3_setScalar (THREE.scale (dummy s)) (scale d)
            (Vector3_lerpVectors (THREE.position (dummy s)) (treePos d) (fst c) t h2)
          !! THREE.position (dummy s)
          = Some (THREE.lerpVectors tp (THREE.multiplyScalar ep 1.5) t)).
  rewrite Vector3_setScalar_other by done.
  apply Vector3_lerpVectors_this; [lia | | done].
  rewrite Hsame by done. done.
Qed.

(** C8. The per-particle data of the three groups is generated once, when
    the component is mounted, and no frame modifies it: after any number
    of frames the three arrays are the ones created at mounting, and every
    vector they refer to (treePos, explodePos) exists and holds the
    coordinates it held at mounting. From any scene, each of the three
    loops changes at most the shared dummy object, the instance matrices
    and vectors it has created itself, and a whole frame writes to no
    vector that existed before other than those of the dummy and of the
    star. The ribbon loop scales a clone: the stored explodePos keeps its
    coordinates while the dummy is placed using the coordinates scaled by
    1.5. *)
Theorem frames_preserve_particle_data (random : nat -> R) (history : list Frame) :
  let s0 := mount random in
  let s := frames history s0 in
  (length (leavesData s0) = COUNT_LEAVES /\
   length (ornamentsData s0) = COUNT_ORNAMENTS /\
   length (ribbonData s0) = COUNT_RIBBON) /\
  (leavesData s = leavesData s0 /\
   ornamentsData s = ornamentsData s0 /\
   ribbonData s = ribbonData s0) /\
  (forall l : nat,
     l ∈ data_locs (leavesData s0 ++ ornamentsData s0 ++ ribbonData s0) ->
     is_Some (heap s0 !! l) /\ heap s !! l = heap s0 !! l) /\
  (forall (f : Frame) (t : R) (s' : Scene),
     loop_footprint s' (updateLeaves f t s') /\
     loop_footprint s' (updateOrnaments f t s') /\
     loop_footprint s' (updateRibbons f t s') /\
     frame_footprint s' (useFrame f s')) /\
  well_formed s /\
  (forall (s' : Scene) (f : Frame) (t : R) (d : ParticleData) (i : nat),
     well_formed s' -> d ∈ ribbonData s' ->
     exists tp ep : Vector3,
       heap s' !! treePos d = Some tp /\
       heap s' !! explodePos d = Some ep /\
       heap (updateRibbon f t d i s') !! explodePos d = Some ep /\
       heap (updateRibbon f t d i s') !! THREE.position (dummy (updateRibbon f t d i s'))
       = Some (THREE.lerpVectors tp (THREE.multiplyScalar ep 1.5) t)).
Proof.
  intros s0 s.
  destruct (mount_spec random) as (Hwf & _ & _ & _ & _ & Hlen).
  destruct (frames_footprint history s0) as (Hst & _ & Hsame).
  destruct (statics_data _ _ Hst) as (Hl & Ho & Hr & _).
  split; [exact Hlen |]. split; [exact (conj Hl (conj Ho Hr)) |].
  split; [| split; [| split]].
  - intros l Hin. destruct Hwf as (_ & _ & _ & Hdata).
    destruct (Hdata l Hin) as [Hlt Hw]. split.
    + apply lookup_lt_is_Some_2. exact Hlt.
    + apply Hsame; assumption.
  - intros f t s'. split; [| split; [| split]].
    + apply updateLeaves_footprint, loop_footprint_refl.
    + apply updateOrnaments_footprint, loop_footprint_refl.
    + apply updateRibbons_footprint, loop_footprint_refl.
    + apply useFrame_footprint.
  - apply frames_well_formed.
  - intros s' f t d i Hwf' Hd. apply updateRibbon_on_clone; assumption.
Qed.

(* ================================================================= *)
(** * Further properties of the code *)
(* ================================================================= *)

(** ** components/GestureController and App *)

(** What the application holds after the gesture logic ran on a hand of 21
    landmarks: the five reported fields, and the mode the triggers leave. *)
Lemma gestureLogic_App
    (p0 p1 p2 p3 p4 p5 p6 p7 p8 p9 p10 p11 p12 p13 p14 p15 p16 p17 p18 p19 p20 :
       NormalizedLandmark) (a : App) :
  exists pinch wide : bool,
    pinch = Rltb (Math_hypot (lx p4 - lx p8) (ly p4 - ly p8)) 0.08 /\
    gestureLogic handleGestureStateChange handleModeTrigger
      [p0; p1; p2; p3; p4; p5; p6; p7; p8; p9; p10;
       p11; p12; p13; p14; p15; p16; p17; p18; p19; p20] a
    = Some (mkApp (if wide && negb pinch then EXPLODE else if pinch then TREE else mode a)
              (mkGestureState true pinch (wide && negb pinch)
                 (1.0 - lx p9, ly p9) ((1.0 - lx p9 - 0.5) * 2))).
Proof.
  unfold gestureLogic. simpl.
  set (pinch := Rltb _ 0.08). set (wide := Rgtb _ 0.3).
  exists pinch, wide. split; [done |].
  destruct pinch, wide; reflexivity.
Qed.

(** The time gate: a call at the video time of the last processed frame
    returns before the detector is asked. *)
Lemma predictWebcam_time_gate {S : Type} (onStateChange : PartialGestureState -> S -> S)
    (onModeTrigger : AppMode -> S -> S) (ready : bool) (currentTime : R)
    (results : list (list NormalizedLandmark)) (c : Controller S) :
  currentTime = lastVideoTime c ->
  predictWebcam onStateChange onModeTrigger ready currentTime results c = Some c.
Proof.
  intros Heq. unfold predictWebcam.
  destruct ready; [| done]. simpl.
  by destruct (Req_dec_T currentTime (lastVideoTime c)).
Qed.

(** X1. A call of [predictWebcam] that finds the video, the canvas or its
    context missing, or that sees the video time of the last processed
    frame, changes nothing: no callback is called and [lastVideoTime]
    stays. *)
Theorem predictWebcam_skips {S : Type} (onStateChange : PartialGestureState -> S -> S)
    (onModeTrigger : AppMode -> S -> S) (ready : bool) (currentTime : R)
    (results : list (list NormalizedLandmark)) (c : Controller S) :
  ready = false \/ currentTime = lastVideoTime c ->
  predictWebcam onStateChange onModeTrigger ready currentTime results c = Some c.
Proof.
  intros [-> | Heq]; [done |].
  by apply predictWebcam_time_gate.
Qed.

Lemma predictWebcam_skips_witness :
  predictWebcam handleGestureStateChange handleModeTrigger true (-1)
    [[centre]] controller0 = Some controller0.
Proof.
  apply (predictWebcam_skips handleGestureStateChange handleModeTrigger true (-1)
           [[centre]] controller0).
  right. reflexivity.
Defined.

(** X2. A video frame is classified at most once: after a call that went
    through with the video, canvas and context present, any further call
    at the same video time changes nothing, whatever the detector would
    answer. *)
Theorem predictWebcam_same_time_once {S : Type}
    (onStateChange : PartialGestureState -> S -> S) (onModeTrigger : AppMode -> S -> S)
    (currentTime : R) (results results' : list (list NormalizedLandmark))
    (ready' : bool) (c c' : Controller S) :
  predictWebcam onStateChange onModeTrigger true currentTime results c = Some c' ->
  predictWebcam onStateChange onModeTrigger ready' currentTime results' c' = Some c'.
Proof.
  intros Hrun. apply predictWebcam_time_gate.
  unfold predictWebcam in Hrun. simpl in Hrun.
  destruct (Req_dec_T currentTime (lastVideoTime c)) as [Heq | Hne].
  - by injection Hrun as <-.
  - destruct results as [| landmarks others].
    + by injection Hrun as <-.
    + destruct (gestureLogic onStateChange onModeTrigger landmarks (parent c));
        [| discriminate Hrun].
      by injection Hrun as <-.
Qed.

Lemma predictWebcam_same_time_once_witness :
  predictWebcam handleGestureStateChange handleModeTrigger true 0 [[centre]]
    (mkController 0 (handleGestureStateChange (mkPartial (Some false) None None None None)
                       App_init))
  = Some (mkController 0 (handleGestureStateChange
                            (mkPartial (Some false) None None None None) App_init)).
Proof.
  apply (predictWebcam_same_time_once handleGestureStateChange handleModeTrigger 0
           [] [[centre]] true controller0).
  unfold predictWebcam, controller0. simpl.
  destruct (Req_dec_T 0 (-1)) as [Heq | Hne]; [lra | reflexivity].
Defined.

(** X3. When a processed video frame shows no hand, the application only
    learns that no hand is detected: the mode stays, and the pinch and open
    flags, the hand position and the rotation offset keep the values of the
    last frame that showed a hand. *)
Theorem predictWebcam_no_hand (currentTime : R) (c : Controller App) :
  currentTime <> lastVideoTime c ->
  predictWebcam handleGestureStateChange handleModeTrigger true currentTime [] c
  = Some (mkController currentTime
            (mkApp (mode (parent c))
               (mkGestureState false
                  (isPinching (gestureState (parent c)))
                  (isOpen (gestureState (parent c)))
                  (handPosition (gestureState (parent c)))
                  (rotationOffset (gestureState (parent c)))))).
Proof.
  intros Hne. unfold predictWebcam. simpl.
  by destruct (Req_dec_T currentTime (lastVideoTime c)).
Qed.

Lemma predictWebcam_no_hand_witness :
  predictWebcam handleGestureStateChange handleModeTrigger true 0 [] controller0
  = Some (mkController 0 (mkApp TREE (mkGestureState false false false (0.5, 0.5) 0))).
Proof.
  apply (predictWebcam_no_hand 0 controller0). simpl. lra.
Defined.

(** The seven landmarks the gesture logic reads all exist exactly when the
    hand has at least 21 landmarks. *)
Lemma lookup_20_others {A} (l : list A) (i : nat) :
  is_Some (l !! 20%nat) -> (i <= 20)%nat -> is_Some (l !! i).
Proof.
  intros H20 Hi. apply lookup_lt_is_Some_2.
  apply lookup_lt_is_Some_1 in H20. lia.
Qed.

(** X4. The gesture logic goes through exactly when the detected hand has
    at least 21 landmarks; on a shorter list reading a missing landmark
    throws before any callback is called, so the parent is told nothing. *)
Theorem gestureLogic_needs_21_landmarks {S : Type}
    (onStateChange : PartialGestureState -> S -> S) (onModeTrigger : AppMode -> S -> S)
    (landmarks : list NormalizedLandmark) (s : S) :
  is_Some (gestureLogic onStateChange onModeTrigger landmarks s)
  <-> (21 <= length landmarks)%nat.
Proof.
  split.
  - intros [s' Hrun]. unfold gestureLogic in Hrun.
    destruct (landmarks !! 20%nat) as [p20 |] eqn:H20.
    + apply lookup_lt_Some in H20. lia.
    + exfalso. simpl in Hrun. rewrite H20 in Hrun.
      destruct (landmarks !! 4%nat); [| discriminate Hrun]. simpl in Hrun.
      destruct (landmarks !! 8%nat); [| discriminate Hrun]. simpl in Hrun.
      destruct (landmarks !! 0%nat); [| discriminate Hrun]. simpl in Hrun.
      destruct (landmarks !! 12%nat); [| discriminate Hrun]. simpl in Hrun.
      destruct (landmarks !! 16%nat); discriminate Hrun.
  - intros Hlen.
    assert (H20 : is_Some (landmarks !! 20%nat)) by (apply lookup_lt_is_Some_2; lia).
    destruct (lookup_20_others landmarks 4 H20 ltac:(lia)) as [p4 H4].
    destruct (lookup_20_others landmarks 8 H20 ltac:(lia)) as [p8 H8].
    destruct (lookup_20_others landmarks 0 H20 ltac:(lia)) as [p0 H0].
    destruct (lookup_20_others landmarks 12 H20 ltac:(lia)) as [p12 H12].
    destruct (lookup_20_others landmarks 16 H20 ltac:(lia)) as [p16 H16].
    destruct (lookup_20_others landmarks 9 H20 ltac:(lia)) as [p9 H9].
    destruct H20 as [p20 H20].
    unfold gestureLogic. simpl. rewrite H4, H8, H0, H12, H16, H20, H9. simpl.
    by eexists.
Qed.

(** X5. For a hand whose palm landmark (index 9) has normalized
    coordinates in [0,1], a processed frame reports the mirrored position
    [(1 - x, y)], again in the unit square, and the rotation offset
    [1 - 2 x], which lies in [-1, 1] and is 0 for a hand at mid-width. *)
Theorem predictWebcam_hand_position
    (p0 p1 p2 p3 p4 p5 p6 p7 p8 p9 p10 p11 p12 p13 p14 p15 p16 p17 p18 p19 p20 :
       NormalizedLandmark)
    (others : list (list NormalizedLandmark)) (currentTime : R) (c : Controller App) :
  currentTime <> lastVideoTime c ->
  0 <= lx p9 <= 1 -> 0 <= ly p9 <= 1 ->
  exists app' : App,
    predictWebcam handleGestureStateChange handleModeTrigger true currentTime
      ([p0; p1; p2; p3; p4; p5; p6; p7; p8; p9; p10;
        p11; p12; p13; p14; p15; p16; p17; p18; p19; p20] :: others) c
    = Some (mkController currentTime app') /\
    handPosition (gestureState app') = (1 - lx p9, ly p9) /\
    rotationOffset (gestureState app') = 1 - 2 * lx p9 /\
    0 <= fst (handPosition (gestureState app')) <= 1 /\
    0 <= snd (handPosition (gestureState app')) <= 1 /\
    -1 <= rotationOffset (gestureState app') <= 1 /\
    (lx p9 = 0.5 -> rotationOffset (gestureState app') = 0).
Proof.
  intros Hne Hx Hy. unfold predictWebcam. simpl negb. cbv iota.
  destruct (Req_dec_T currentTime (lastVideoTime c)) as [Heq | _]; [done |].
  destruct (gestureLogic_App p0 p1 p2 p3 p4 p5 p6 p7 p8 p9 p10 p11 p12 p13 p14
              p15 p16 p17 p18 p19 p20 (parent c)) as (pinch & wide & _ & ->).
  simpl. eexists. split; [reflexivity |]. simpl.
  split; [f_equal; lra |]. repeat split; intros; lra.
Qed.

Lemma predictWebcam_hand_position_witness :
  exists app' : App,
    predictWebcam handleGestureStateChange handleModeTrigger true 0
      ([centre; centre; centre; centre; centre; centre; centre; centre; centre; centre;
        centre; centre; centre; centre; centre; centre; centre; centre; centre; centre;
        centre] :: []) controller0 = Some (mkController 0 app') /\
    rotationOffset (gestureState app') = 1 - 2 * lx centre.
Proof.
  destruct (predictWebcam_hand_position
              centre centre centre centre centre centre centre centre centre centre centre
              centre centre centre centre centre centre centre centre centre centre
              [] 0 controller0) as (app' & Hrun & _ & Hrot & _).
  - simpl. lra.
  - simpl. lra.
  - simpl. lra.
  - exists app'. split; [exact Hrun | exact Hrot].
Defined.

(** The two handlers of the application act on separate parts of its
    state: a gesture state change never touches the mode, a mode trigger or
    a click never touches the gesture state, so a state change and a mode
    trigger give the same state in either order, and of two triggers the
    last one decides. *)
Lemma App_handlers_independent (a : App) (newState : PartialGestureState)
    (m m' : AppMode) :
  mode (handleGestureStateChange newState a) = mode a /\
  gestureState (handleModeTrigger m a) = gestureState a /\
  gestureState (toggleMode a) = gestureState a /\
  handleModeTrigger m (handleGestureStateChange newState a)
  = handleGestureStateChange newState (handleModeTrigger m a) /\
  handleModeTrigger m' (handleModeTrigger m a) = handleModeTrigger m' a /\
  mode (handleModeTrigger m (toggleMode a)) = m.
Proof. by repeat split. Qed.

(** ** components/ChristmasTree: the frame callback *)

(** X6. The guard of the frame callback: when one of the five refs is not
    attached the callback returns at once, and nothing of the scene
    changes, the transition value included. *)
Theorem useFrame_detached (f : Frame) (s : Scene) :
  all_attached s = false -> useFrame f s = s.
Proof.
  unfold all_attached, useFrame. intros Hatt.
  destruct (leavesRef s), (ornamentsRef s), (ribbonRef s), (groupRef s), (starRef s);
    try done.
Qed.

Lemma useFrame_detached_witness : useFrame frame_slow scene_detached = scene_detached.
Proof. apply (useFrame_detached frame_slow scene_detached). reflexivity. Defined.

Lemma frames_app fs gs s : frames (fs ++ gs) s = frames gs (frames fs s).
Proof. unfold frames. apply fold_left_app. Qed.

(** The stored value after one more frame of a session. *)
Lemma frames_snoc_transition random history f :
  transitionRef (frames (history ++ [f]) (mount random))
  = THREE.lerp (transitionRef (frames history (mount random)))
      (if decide (props_mode f = EXPLODE) then 1 else 0) (delta f * 2.5).
Proof.
  rewrite frames_app, frames_one. apply useFrame_transition, frames_all_attached.
Qed.

(** X7. Frames that keep one mode and one frame time bring the transition
    value to its target geometrically: after [n] such frames the distance
    to the target is the old distance times [(1 - 2.5 delta) ^ n], whatever
    the clock and the gesture rotation of the frames. *)
Theorem transition_geometric (random : nat -> R) (history fs : list Frame)
    (m : AppMode) (dt : R) :
  Forall (fun f => props_mode f = m /\ delta f = dt) fs ->
  let target := if decide (m = EXPLODE) then 1 else 0 in
  transitionRef (frames (history ++ fs) (mount random)) - target
  = (1 - dt * 2.5) ^ length fs * (transitionRef (frames history (mount random)) - target).
Proof.
  intros Hfs target. revert history.
  induction Hfs as [| f fs [Hm Hd] Hfs IH]; intros history.
  - rewrite app_nil_r. simpl. ring.
  - replace (history ++ f :: fs) with ((history ++ [f]) ++ fs) by (by rewrite <- app_assoc).
    rewrite IH, frames_snoc_transition, Hm, Hd. fold target.
    rewrite lerp_distance. simpl. ring.
Qed.

Lemma transition_geometric_witness :
  transitionRef (frames ([] ++ [frame60; frame60]) (mount (fun _ => 1 / 2))) - 1
  = (1 - 1 / 60 * 2.5) ^ 2 * (transitionRef (frames [] (mount (fun _ => 1 / 2))) - 1).
Proof.
  apply (transition_geometric (fun _ => 1 / 2) [] [frame60; frame60] EXPLODE (1 / 60)).
  repeat constructor.
Defined.

(** X8. The two rest states are fixed points of the animation for frames of
    any length: while the mode is TREE a transition value of 0 stays 0, and
    while the mode is EXPLODE a value of 1 stays 1. In particular nothing
    moves between mounting and the first change of mode. *)
Theorem transition_rest_states (random : nat -> R) (history fs : list Frame) (m : AppMode) :
  Forall (fun f => props_mode f = m) fs ->
  transitionRef (frames history (mount random)) = (if decide (m = EXPLODE) then 1 else 0) ->
  transitionRef (frames (history ++ fs) (mount random)) = (if decide (m = EXPLODE) then 1 else 0).
Proof.
  intros Hfs. revert history.
  induction Hfs as [| f fs Hm Hfs IH]; intros history Hrest.
  - by rewrite app_nil_r.
  - replace (history ++ f :: fs) with ((history ++ [f]) ++ fs) by (by rewrite <- app_assoc).
    apply IH. rewrite frames_snoc_transition, Hm, Hrest. unfold THREE.lerp. ring.
Qed.

Lemma transition_rest_states_witness :
  transitionRef (frames ([] ++ [mkFrame TREE 0 0 1; mkFrame TREE 0 1 1])
                   (mount (fun _ => 1 / 2))) = 0.
Proof.
  apply (transition_rest_states (fun _ => 1 / 2) [] [mkFrame TREE 0 0 1; mkFrame TREE 0 1 1]
           TREE).
  - repeat constructor.
  - by destruct (mount_spec (fun _ => 1 / 2)) as (_ & Ht0 & _).
Defined.

(** *** The matrices the loops store *)

(** The three statements after the positioning of the dummy: its matrix is
    composed from the position it was given, the rotation and the scale. *)
Lemma dummy_pipeline a b c k s p :
  THREE.position (dummy s) <> THREE.scale (dummy s) ->
  (THREE.scale (dummy s) < length (heap s))%nat ->
  heap s !! THREE.position (dummy s) = Some p ->
  THREE.matrix (dummy (dummy_updateMatrix
                         (dummy_scale_setScalar k (dummy_rotation_set a b c s))))
  = THREE.compose p (THREE.mkEuler a b c) (THREE.setScalar k).
Proof.
  intros Hne Hlt Hp.
  unfold dummy_updateMatrix, dummy_scale_setScalar, dummy_rotation_set, updateMatrix,
    Vector3_setScalar.
  cbn [heap dummy set_heap set_dummy rotation_set THREE.position THREE.scale
       THREE.rotation THREE.matrix].
  rewrite list_lookup_insert_ne, Hp by done.
  rewrite list_lookup_insert_eq by done. reflexivity.
Qed.

(** What a scene within the footprint of the loops keeps of [s0]. *)
Lemma loop_footprint_facts s0 s d :
  loop_footprint s0 s -> particle_ok s0 d ->
  THREE.position (dummy s) = THREE.position (dummy s0) /\
  THREE.scale (dummy s) = THREE.scale (dummy s0) /\
  (length (heap s0) <= length (heap s))%nat /\
  heap s !! treePos d = heap s0 !! treePos d /\
  heap s !! explodePos d = heap s0 !! explodePos d /\
  is_Some (heap s0 !! treePos d) /\ is_Some (heap s0 !! explodePos d).
Proof.
  intros Hfp ((Ht & Htp & Hts) & (He & Hep & Hes)).
  destruct (loop_footprint_dummy_locs _ _ Hfp) as [Hp Hs].
  destruct Hfp as (_ & _ & _ & _ & Hlen & Hsame).
  repeat split; try done; try (by apply Hsame); by apply lookup_lt_is_Some_2.
Qed.

Lemma updateLeaf_matrix s0 f t d i s :
  THREE.position (dummy s0) <> THREE.scale (dummy s0) ->
  (THREE.position (dummy s0) < length (heap s0))%nat ->
  (THREE.scale (dummy s0) < length (heap s0))%nat ->
  loop_footprint s0 s -> particle_ok s0 d ->
  exists tp ep,
    heap s0 !! treePos d = Some tp /\ heap s0 !! explodePos d = Some ep /\
    leavesRef (updateLeaf f t d i s)
    = THREE.setMatrixAt i (leafMatrix f t i (scale d) tp ep) <$> leavesRef s.
Proof.
  intros Hne Hp Hs Hfp Hd.
  destruct (loop_footprint_facts _ _ _ Hfp Hd) as (Hp' & Hs' & Hlen & Ht & He & [tp Htp] & [ep Hep]).
  exists tp, ep. split; [done |]. split; [done |].
  unfold updateLeaf. cbv zeta.
  set (s1 := dummy_position_lerpVectors (treePos d) (explodePos d) t s).
  change (THREE.setMatrixAt i
            (THREE.matrix (dummy (dummy_updateMatrix
               (dummy_scale_setScalar (scale d * (1 - t * 0.5))
                  (dummy_rotation_set (sin (clock_elapsedTime f * 0.5 + INR i))
                     (cos (clock_elapsedTime f * 0.3 + INR i)) 0 s1))))) <$> leavesRef s
          = THREE.setMatrixAt i (leafMatrix f t i (scale d) tp ep) <$> leavesRef s).
  rewrite (dummy_pipeline _ _ _ _ s1 (THREE.lerpVectors tp ep t)); [done | | |].
  - unfold s1. simpl. congruence.
  - unfold s1. simpl. rewrite Vector3_lerpVectors_length. lia.
  - unfold s1. cbn [heap dummy dummy_position_lerpVectors set_heap].
    apply Vector3_lerpVectors_this; [lia | congruence | congruence].
Qed.

Lemma updateOrnament_matrix s0 f t d i s :
  THREE.position (dummy s0) <> THREE.scale (dummy s0) ->
  (THREE.position (dummy s0) < length (heap s0))%nat ->
  (THREE.scale (dummy s0) < length (heap s0))%nat ->
  loop_footprint s0 s -> particle_ok s0 d ->
  exists tp ep,
    heap s0 !! treePos d = Some tp /\ heap s0 !! explodePos d = Some ep /\
    ornamentsRef (updateOrnament f t d i s)
    = THREE.setMatrixAt i (ornamentMatrix f t i (scale d) tp ep) <$> ornamentsRef s.
Proof.
  intros Hne Hp Hs Hfp Hd.
  destruct (loop_footprint_facts _ _ _ Hfp Hd) as (Hp' & Hs' & Hlen & Ht & He & [tp Htp] & [ep Hep]).
  exists tp, ep. split; [done |]. split; [done |].
  unfold updateOrnament. cbv zeta.
  set (s1 := dummy_position_lerpVectors (treePos d) (explodePos d) t s).
  change (THREE.setMatrixAt i
            (THREE.matrix (dummy (dummy_updateMatrix
               (dummy_scale_setScalar (scale d)
                  (dummy_rotation_set (clock_elapsedTime f + INR i)
                     (clock_elapsedTime f + INR i) 0 s1))))) <$> ornamentsRef s
          = THREE.setMatrixAt i (ornamentMatrix f t i (scale d) tp ep) <$> ornamentsRef s).
  rewrite (dummy_pipeline _ _ _ _ s1 (THREE.lerpVectors tp ep t)); [done | | |].
  - unfold s1. simpl. congruence.
  - unfold s1. simpl. rewrite Vector3_lerpVectors_length. lia.
  - unfold s1. cbn [heap dummy dummy_position_lerpVectors set_heap].
    apply Vector3_lerpVectors_this; [lia | congruence | congruence].
Qed.

Lemma updateRibbon_matrix s0 f t d i s :
  THREE.position (dummy s0) <> THREE.scale (dummy s0) ->
  (THREE.position (dummy s0) < length (heap s0))%nat ->
  (THREE.scale (dummy s0) < length (heap s0))%nat ->
  loop_footprint s0 s -> particle_ok s0 d ->
  exists tp ep,
    heap s0 !! treePos d = Some tp /\ heap s0 !! explodePos d = Some ep /\
    ribbonRef (updateRibbon f t d i s)
    = THREE.setMatrixAt i (ribbonMatrix f t i (scale d) tp ep) <$> ribbonRef s.
Proof.
  intros Hne Hp Hs Hfp Hd.
  destruct (loop_footprint_facts _ _ _ Hfp Hd) as (Hp' & Hs' & Hlen & Ht & He & [tp Htp] & [ep Hep]).
  destruct Hd as ((Htl & _) & (Hel & _)).
  exists tp, ep. split; [done |]. split; [done |].
  unfold updateRibbon. cbv zeta.
  destruct (clone_multiplyScalar_old (explodePos d) 1.5 (heap s)) as [Hclen Hcold].
  destruct (clone_multiplyScalar_new (explodePos d) 1.5 (heap s) ep) as [Hc Hcnew];
    [congruence |].
  cbv zeta in Hclen, Hcold, Hc, Hcnew.
  set (c := Vector3_clone (explodePos d) (heap s)) in *.
  set (h2 := Vector3_multiplyScalar (fst c) 1.5 (snd c)) in *.
  set (s1 := dummy_position_lerpVectors (treePos d) (fst c) t (set_heap h2 s)).
  change (THREE.setMatrixAt i
            (THREE.matrix (dummy (dummy_updateMatrix
               (dummy_scale_setScalar (scale d)
                  (dummy_rotation_set (clock_elapsedTime f * 2 + INR i) (INR i * 0.1) 0
                     s1))))) <$> ribbonRef s
          = THREE.setMatrixAt i (ribbonMatrix f t i (scale d) tp ep) <$> ribbonRef s).
  rewrite (dummy_pipeline _ _ _ _ s1
             (THREE.lerpVectors tp (THREE.multiplyScalar ep 1.5) t)); [done | | |].
  - unfold s1. simpl. congruence.
  - unfold s1. simpl. rewrite Vector3_lerpVectors_length. lia.
  - unfold s1. cbn [heap dummy dummy_position_lerpVectors set_heap].
    apply Vector3_lerpVectors_this; [lia | | done].
    rewrite Hcold by lia. congruence.
Qed.

(** A loop whose body stores a matrix in slot [i] of its mesh, and stays
    within the footprint of the loops, fills the slots of its particles
    with their matrices and leaves the other slots as they were. *)
Lemma forEach_from_matrices (s0 : Scene)
    (body : ParticleData -> nat -> Scene -> Scene)
    (get : Scene -> option THREE.InstancedMesh)
    (expected : ParticleData -> nat -> THREE.Matrix4 -> Prop) (ok : ParticleData -> Prop) :
  (forall d i s, loop_footprint s0 s -> loop_footprint s0 (body d i s)) ->
  (forall d i s, loop_footprint s0 s -> ok d ->
     exists mat, expected d i mat /\ get (body d i s) = THREE.setMatrixAt i mat <$> get s) ->
  forall xs i s m,
    Forall ok xs -> loop_footprint s0 s -> get s = Some m ->
    (i + length xs <= length (THREE.instanceMatrix m))%nat ->
    exists m',
      get (forEach_from body xs i s) = Some m' /\
      length (THREE.instanceMatrix m') = length (THREE.instanceMatrix m) /\
      THREE.needsUpdate m' = THREE.needsUpdate m /\
      (forall j : nat, (j < i)%nat ->
         THREE.instanceMatrix m' !! j = THREE.instanceMatrix m !! j) /\
      (forall (k : nat) d, xs !! k = Some d ->
         exists mat, expected d (i + k)%nat mat /\
                     THREE.instanceMatrix m' !! (i + k)%nat = Some mat).
Proof.
  intros Hfp Hstep. induction xs as [| d xs IH]; intros i s m Hok Hs Hget Hlen.
  - exists m. simpl. by repeat split.
  - apply Forall_cons in Hok as [Hd Hok]. simpl in Hlen.
    destruct (Hstep d i s Hs Hd) as (mat & Hmat & Hget').
    rewrite Hget in Hget'. simpl in Hget'.
    destruct (IH (S i) (body d i s) (THREE.setMatrixAt i mat m) Hok (Hfp d i s Hs) Hget')
      as (m' & Hm' & Hlen' & Hnu & Hbefore & Hslots).
    { simpl. rewrite length_insert. lia. }
    exists m'. simpl in *. rewrite length_insert in Hlen'.
    split; [done |]. split; [done |]. split; [done |]. split.
    + intros j Hj. rewrite Hbefore by lia. apply list_lookup_insert_ne. lia.
    + intros [| k] d' Hk; simpl in Hk.
      * injection Hk as <-. exists mat. split; [by rewrite Nat.add_0_r |].
        rewrite Nat.add_0_r, Hbefore by lia. apply list_lookup_insert_eq. lia.
      * destruct (Hslots k d' Hk) as (mat' & Hexp & Hlook).
        exists mat'. by rewrite <- Nat.add_succ_comm.
Qed.

(** A loop keeps what each call of its body keeps. *)
Lemma forEach_from_keeps {A B} (proj : Scene -> B) (body : A -> nat -> Scene -> Scene) :
  (forall a i s, proj (body a i s) = proj s) ->
  forall xs i s, proj (forEach_from body xs i s) = proj s.
Proof.
  intros Hbody. induction xs as [| a xs IH]; intros i s; simpl; [done |].
  by rewrite IH, Hbody.
Qed.

(** Which refs each of the three steps leaves alone. *)
Lemma updateLeaves_other_refs f t s :
  ornamentsRef (updateLeaves f t s) = ornamentsRef s /\
  ribbonRef (updateLeaves f t s) = ribbonRef s.
Proof.
  unfold updateLeaves, forEach. cbv zeta. split.
  - apply (forEach_from_keeps ornamentsRef). reflexivity.
  - apply (forEach_from_keeps ribbonRef). reflexivity.
Qed.

Lemma updateOrnaments_other_refs f t s :
  leavesRef (updateOrnaments f t s) = leavesRef s /\
  ribbonRef (updateOrnaments f t s) = ribbonRef s.
Proof.
  unfold updateOrnaments, forEach. cbv zeta. split.
  - apply (forEach_from_keeps leavesRef). reflexivity.
  - apply (forEach_from_keeps ribbonRef). reflexivity.
Qed.

Lemma updateRibbons_other_refs f t s :
  leavesRef (updateRibbons f t s) = leavesRef s /\
  ornamentsRef (updateRibbons f t s) = ornamentsRef s.
Proof.
  unfold updateRibbons, forEach. cbv zeta. split.
  - apply (forEach_from_keeps leavesRef). reflexivity.
  - apply (forEach_from_keeps ornamentsRef). reflexivity.
Qed.

(** The callback, once its guard has passed, as the composition of its six
    steps at the new transition value. *)
Lemma useFrame_steps f s :
  all_attached s = true ->
  let t := THREE.lerp (transitionRef s) (if decide (props_mode f = EXPLODE) then 1 else 0)
             (delta f * 2.5) in
  exists group star,
    groupRef s = Some group /\ starRef s = Some star /\
    transitionRef (useFrame f s) = t /\
    useFrame f s
    = updateStar f t star
        (updateRibbons f t (updateOrnaments f t (updateLeaves f t
           (rotateGroup f group (handleTransition f s))))).
Proof.
  intros Hatt t. pose proof (useFrame_transition f s Hatt) as Ht.
  unfold all_attached, useFrame in *.
  destruct (leavesRef s), (ornamentsRef s), (ribbonRef s), (groupRef s) as [group |],
    (starRef s) as [star |]; try discriminate Hatt.
  exists group, star. split; [done |]. split; [done |]. split; [exact Ht |]. reflexivity.
Qed.

Lemma well_formed_particle_ok s d :
  well_formed s -> d ∈ leavesData s ++ ornamentsData s ++ ribbonData s -> particle_ok s d.
Proof.
  intros (_ & _ & _ & Hdata) Hd.
  apply data_locs_intro in Hd as [Htree Hexp].
  apply Hdata in Htree as [Htl Htw]. apply Hdata in Hexp as [Hel Hew].
  unfold particle_ok.
  split; (split; [done |]); split; intros Heq;
    first [apply Htw; rewrite Heq; unfold writable, locs_of; solve_elem_of
          | apply Hew; rewrite Heq; unfold writable, locs_of; solve_elem_of].
Qed.

(** A scene ready for the loops: well formed, and the scale vector of the
    dummy exists. *)
Lemma loop_ready_footprint s s' :
  well_formed s -> (THREE.scale (dummy s) < length (heap s))%nat ->
  frame_footprint s s' ->
  well_formed s' /\ (THREE.scale (dummy s') < length (heap s'))%nat.
Proof.
  intros Hwf Hsc Hfp. split; [by apply (well_formed_footprint s) |].
  destruct Hfp as (Hst & Hlen & _).
  destruct (statics_data _ _ Hst) as (_ & _ & _ & _ & ->). lia.
Qed.

Lemma updateLeaves_matrices f t s m :
  well_formed s -> (THREE.scale (dummy s) < length (heap s))%nat ->
  leavesRef s = Some m -> length (THREE.instanceMatrix m) = length (leavesData s) ->
  exists m',
    leavesRef (updateLeaves f t s) = Some m' /\
    THREE.needsUpdate m' = true /\
    length (THREE.instanceMatrix m') = length (leavesData s) /\
    forall (i : nat) d, leavesData s !! i = Some d ->
      exists tp ep,
        heap s !! treePos d = Some tp /\ heap s !! explodePos d = Some ep /\
        THREE.instanceMatrix m' !! i = Some (leafMatrix f t i (scale d) tp ep).
Proof.
  intros Hwf Hsc Hm Hlen.
  pose proof Hwf as (_ & Hne & Hp & _).
  destruct (forEach_from_matrices s (updateLeaf f t) leavesRef
              (fun d i mat => exists tp ep,
                 heap s !! treePos d = Some tp /\ heap s !! explodePos d = Some ep /\
                 mat = leafMatrix f t i (scale d) tp ep)
              (particle_ok s)
              (fun d i s' => updateLeaf_footprint f t d i s s'))
    with (xs := leavesData s) (i := 0%nat) (s := s) (m := m)
    as (m' & Hm' & Hlen' & _ & _ & Hslots).
  - intros d i s' Hfp Hd.
    destruct (updateLeaf_matrix s f t d i s' Hne Hp Hsc Hfp Hd) as (tp & ep & Ht & He & Href).
    exists (leafMatrix f t i (scale d) tp ep). split; [by exists tp, ep | exact Href].
  - apply Forall_forall. intros d Hd. apply well_formed_particle_ok; [done |].
    rewrite !elem_of_app. auto.
  - apply loop_footprint_refl.
  - done.
  - simpl. lia.
  - exists (THREE.set_needsUpdate m'). unfold updateLeaves, forEach. cbv zeta.
    cbn [leavesRef set_leavesRef]. rewrite Hm'. split; [done |]. split; [done |].
    split; [simpl; congruence |].
    intros i d Hi. destruct (Hslots i d Hi) as (mat & (tp & ep & Ht & He & ->) & Hlook).
    exists tp, ep. done.
Qed.

Lemma updateOrnaments_matrices f t s m :
  well_formed s -> (THREE.scale (dummy s) < length (heap s))%nat ->
  ornamentsRef s = Some m -> length (THREE.instanceMatrix m) = length (ornamentsData s) ->
  exists m',
    ornamentsRef (updateOrnaments f t s) = Some m' /\
    THREE.needsUpdate m' = true /\
    length (THREE.instanceMatrix m') = length (ornamentsData s) /\
    forall (i : nat) d, ornamentsData s !! i = Some d ->
      exists tp ep,
        heap s !! treePos d = Some tp /\ heap s !! explodePos d = Some ep /\
        THREE.instanceMatrix m' !! i = Some (ornamentMatrix f t i (scale d) tp ep).
Proof.
  intros Hwf Hsc Hm Hlen.
  pose proof Hwf as (_ & Hne & Hp & _).
  destruct (forEach_from_matrices s (updateOrnament f t) ornamentsRef
              (fun d i mat => exists tp ep,
                 heap s !! treePos d = Some tp /\ heap s !! explodePos d = Some ep /\
                 mat = ornamentMatrix f t i (scale d) tp ep)
              (particle_ok s)
              (fun d i s' => updateOrnament_footprint f t d i s s'))
    with (xs := ornamentsData s) (i := 0%nat) (s := s) (m := m)
    as (m' & Hm' & Hlen' & _ & _ & Hslots).
  - intros d i s' Hfp Hd.
    destruct (updateOrnament_matrix s f t d i s' Hne Hp Hsc Hfp Hd)
      as (tp & ep & Ht & He & Href).
    exists (ornamentMatrix f t i (scale d) tp ep). split; [by exists tp, ep | exact Href].
  - apply Forall_forall. intros d Hd. apply well_formed_particle_ok; [done |].
    rewrite !elem_of_app. auto.
  - apply loop_footprint_refl.
  - done.
  - simpl. lia.
  - exists (THREE.set_needsUpdate m'). unfold updateOrnaments, forEach. cbv zeta.
    cbn [ornamentsRef set_ornamentsRef]. rewrite Hm'. split; [done |]. split; [done |].
    split; [simpl; congruence |].
    intros i d Hi. destruct (Hslots i d Hi) as (mat & (tp & ep & Ht & He & ->) & Hlook).
    exists tp, ep. done.
Qed.

Lemma updateRibbons_matrices f t s m :
  well_formed s -> (THREE.scale (dummy s) < length (heap s))%nat ->
  ribbonRef s = Some m -> length (THREE.instanceMatrix m) = length (ribbonData s) ->
  exists m',
    ribbonRef (updateRibbons f t s) = Some m' /\
    THREE.needsUpdate m' = true /\
    length (THREE.instanceMatrix m') = length (ribbonData s) /\
    forall (i : nat) d, ribbonData s !! i = Some d ->
      exists tp ep,
        heap s !! treePos d = Some tp /\ heap s !! explodePos d = Some ep /\
        THREE.instanceMatrix m' !! i = Some (ribbonMatrix f t i (scale d) tp ep).
Proof.
  intros Hwf Hsc Hm Hlen.
  pose proof Hwf as (_ & Hne & Hp & _).
  destruct (forEach_from_matrices s (updateRibbon f t) ribbonRef
              (fun d i mat => exists tp ep,
                 heap s !! treePos d = Some tp /\ heap s !! explodePos d = Some ep /\
                 mat = ribbonMatrix f t i (scale d) tp ep)
              (particle_ok s)
              (fun d i s' => updateRibbon_footprint f t d i s s'))
    with (xs := ribbonData s) (i := 0%nat) (s := s) (m := m)
    as (m' & Hm' & Hlen' & _ & _ & Hslots).
  - intros d i s' Hfp Hd.
    destruct (updateRibbon_matrix s f t d i s' Hne Hp Hsc Hfp Hd)
      as (tp & ep & Ht & He & Href).
    exists (ribbonMatrix f t i (scale d) tp ep). split; [by exists tp, ep | exact Href].
  - apply Forall_forall. intros d Hd. apply well_formed_particle_ok; [done |].
    rewrite !elem_of_app. auto.
  - apply loop_footprint_refl.
  - done.
  - simpl. lia.
  - exists (THREE.set_needsUpdate m'). unfold updateRibbons, forEach. cbv zeta.
    cbn [ribbonRef set_ribbonRef]. rewrite Hm'. split; [done |]. split; [done |].
    split; [simpl; congruence |].
    intros i d Hi. destruct (Hslots i d Hi) as (mat & (tp & ep & Ht & He & ->) & Hlook).
    exists tp, ep. done.
Qed.

(** *** The scene between two frames *)

Transparent new_InstancedMesh.

Lemma new_InstancedMesh_length n :
  length (THREE.instanceMatrix (new_InstancedMesh n)) = n.
Proof. unfold new_InstancedMesh. simpl. apply length_replicate. Qed.

Opaque new_InstancedMesh.

Transparent mount.

(** What mounting establishes besides [mount_spec]: the buffers have one
    slot per particle, the star and its two positions are in place, the
    top of the tree is at height [TREE_HEIGHT + TREE_Y_OFFSET + 0.2] on
    the axis, and group and star are not rotated. *)
Lemma mount_spec_frame (random : nat -> R) :
  (THREE.scale (dummy (mount random)) < length (heap (mount random)))%nat /\
  sized (mount random) /\
  star_ok (mount random) /\
  heap (mount random) !! starTreePos (mount random)
    = Some (mkVector3 0 (TREE_HEIGHT + TREE_Y_OFFSET + 0.2) 0) /\
  (exists group, groupRef (mount random) = Some group /\
                 THREE.rotation group = THREE.mkEuler 0 0 0) /\
  (exists star, starRef (mount random) = Some star /\
                THREE.rotation star = THREE.mkEuler 0 0 0).
Proof.
  pose proof leavesData_init_length as Ll.
  pose proof ornamentsData_init_length as Lo.
  pose proof ribbonData_init_length as Lr.
  pose proof (leavesData_init_post random 2) as Hl.
  pose proof (ornamentsData_init_post random 2) as Ho.
  pose proof (ribbonData_init_post random 2) as Hr.
  pose proof (new_InstancedMesh_length COUNT_LEAVES) as Ml.
  pose proof (new_InstancedMesh_length COUNT_ORNAMENTS) as Mo.
  pose proof (new_InstancedMesh_length COUNT_RIBBON) as Mr.
  unfold mount, render.
  revert Ml Mo Mr.
  generalize (new_InstancedMesh COUNT_LEAVES) (new_InstancedMesh COUNT_ORNAMENTS)
             (new_InstancedMesh COUNT_RIBBON).
  revert Ll Lo Lr Hl Ho Hr.
  generalize leavesData_init ornamentsData_init ribbonData_init.
  generalize COUNT_LEAVES COUNT_ORNAMENTS COUNT_RIBBON.
  intros nl no nr gl go gr Ll Lo Lr Hl Ho Hr ml mo mr Ml Mo Mr.
  unfold bind. simpl.
  set (w1 := mkWorld random 0 _).
  assert (H1 : gen_inv random 2 w1) by (split; [done | simpl; lia]).
  destruct (Hl w1 H1) as [H2 _]. specialize (Ll w1).
  destruct (gl w1) as [leaves w2]. simpl in *.
  destruct (Ho w2 H2) as [H3 _]. specialize (Lo w2).
  destruct (go w2) as [ornaments w3]. simpl in *.
  destruct (Hr w3 H3) as [[_ H4] _]. specialize (Lr w3).
  destruct (gr w3) as [ribbon w4]. simpl in *.
  clear Hl Ho Hr.
  split; [| split; [| split; [| split; [| split]]]].
  - rewrite !length_app. simpl. lia.
  - unfold sized. simpl. split; [| split]; eexists; (split; [reflexivity | congruence]).
  - unfold star_ok, writable, locs_of. simpl. eexists. split; [reflexivity |]. simpl.
    rewrite !length_app. simpl.
    rewrite !elem_of_cons, !elem_of_nil. lia.
  - rewrite <- !app_assoc. simpl. rewrite length_app. simpl.
    rewrite lookup_app_r by lia.
    replace (length (objs w4) + 1 - length (objs w4))%nat with 1%nat by lia. reflexivity.
  - eexists. split; reflexivity.
  - eexists. split; reflexivity.
Qed.

Opaque mount.

Lemma statics_star s s' :
  statics s' = statics s ->
  starTreePos s' = starTreePos s /\ starExplodePos s' = starExplodePos s /\
  locs_of <$> starRef s' = locs_of <$> starRef s.
Proof.
  intros Hst.
  pose proof (f_equal (fun x => x.1.1.1.2) Hst) as Hpos.
  pose proof (f_equal (fun x => x.1.2) Hst) as Hstar.
  simpl in Hpos, Hstar. injection Hpos as He Ht. done.
Qed.

Lemma star_ok_footprint s s' : star_ok s -> frame_footprint s s' -> star_ok s'.
Proof.
  intros (star & Hstar & Hne & Hp & Hsc & Ht & Htw & He & Hew) (Hst & Hlen & _).
  destruct (statics_star _ _ Hst) as (Ht' & He' & Hlocs).
  rewrite Hstar in Hlocs. simpl in Hlocs.
  destruct (starRef s') as [star' |] eqn:Hstar'; [| discriminate Hlocs].
  simpl in Hlocs. unfold locs_of in Hlocs. injection Hlocs as Hp' Hs'.
  exists star'. rewrite (writable_statics _ _ Hst), Ht', He', Hp', Hs'.
  repeat split; try done; lia.
Qed.

(** The vectors of the particles hold in [s'] what they held in [s]. *)
Lemma data_cells_kept s s' d :
  well_formed s -> frame_footprint s s' ->
  d ∈ leavesData s ++ ornamentsData s ++ ribbonData s ->
  heap s' !! treePos d = heap s !! treePos d /\
  heap s' !! explodePos d = heap s !! explodePos d.
Proof.
  intros (_ & _ & _ & Hdata) (_ & _ & Hsame) Hd.
  apply data_locs_intro in Hd as [Htree Hexp].
  apply Hdata in Htree as [? ?]. apply Hdata in Hexp as [? ?].
  split; by apply Hsame.
Qed.

(** 6. Update Star: where the star is put, how large it is drawn, and how
    it is turned. *)
Lemma updateStar_effect f t star s stp sep :
  THREE.position star <> THREE.scale star ->
  (THREE.position star < length (heap s))%nat ->
  (THREE.scale star < length (heap s))%nat ->
  heap s !! starTreePos s = Some stp -> heap s !! starExplodePos s = Some sep ->
  heap (updateStar f t star s) !! THREE.position star = Some (THREE.lerpVectors stp sep t) /\
  heap (updateStar f t star s) !! THREE.scale star
    = Some (THREE.setScalar ((1 + sin (clock_elapsedTime f * 4) * 0.1) * (1 - t * 0.3))) /\
  starRef (updateStar f t star s)
    = Some (THREE.mkObject3D (THREE.position star)
              (THREE.mkEuler (THREE.ex (THREE.rotation star))
                 (sin (clock_elapsedTime f) * 0.2) (clock_elapsedTime f * 0.5))
              (THREE.scale star) (THREE.matrix star)).
Proof.
  intros Hne Hp Hsc Ht He. unfold updateStar. cbv zeta.
  cbn [heap set_heap set_starRef starRef starTreePos starExplodePos].
  split; [| split].
  - rewrite Vector3_setScalar_other by done.
    by apply Vector3_lerpVectors_this.
  - unfold Vector3_setScalar. apply list_lookup_insert_eq.
    by rewrite Vector3_lerpVectors_length.
  - reflexivity.
Qed.

Lemma updateStar_other_refs f t star s :
  leavesRef (updateStar f t star s) = leavesRef s /\
  ornamentsRef (updateStar f t star s) = ornamentsRef s /\
  ribbonRef (updateStar f t star s) = ribbonRef s /\
  groupRef (updateStar f t star s) = groupRef s.
Proof. by repeat split. Qed.

(** What one frame does to a scene that satisfies the invariant. *)
Lemma useFrame_effect f s :
  frame_inv s ->
  let s' := useFrame f s in
  let t := transitionRef s' in
  frame_inv s' /\
  (exists m, leavesRef s' = Some m /\ THREE.needsUpdate m = true /\
     forall (i : nat) d, leavesData s !! i = Some d ->
       exists tp ep,
         heap s !! treePos d = Some tp /\ heap s !! explodePos d = Some ep /\
         THREE.instanceMatrix m !! i = Some (leafMatrix f t i (scale d) tp ep)) /\
  (exists m, ornamentsRef s' = Some m /\ THREE.needsUpdate m = true /\
     forall (i : nat) d, ornamentsData s !! i = Some d ->
       exists tp ep,
         heap s !! treePos d = Some tp /\ heap s !! explodePos d = Some ep /\
         THREE.instanceMatrix m !! i = Some (ornamentMatrix f t i (scale d) tp ep)) /\
  (exists m, ribbonRef s' = Some m /\ THREE.needsUpdate m = true /\
     forall (i : nat) d, ribbonData s !! i = Some d ->
       exists tp ep,
         heap s !! treePos d = Some tp /\ heap s !! explodePos d = Some ep /\
         THREE.instanceMatrix m !! i = Some (ribbonMatrix f t i (scale d) tp ep)) /\
  (exists star stp sep,
     starRef s = Some star /\
     heap s !! starTreePos s = Some stp /\ heap s !! starExplodePos s = Some sep /\
     heap s' !! THREE.position star = Some (THREE.lerpVectors stp sep t) /\
     heap s' !! THREE.scale star
       = Some (THREE.setScalar ((1 + sin (clock_elapsedTime f * 4) * 0.1) * (1 - t * 0.3))) /\
     starRef s'
       = Some (THREE.mkObject3D (THREE.position star)
                 (THREE.mkEuler (THREE.ex (THREE.rotation star))
                    (sin (clock_elapsedTime f) * 0.2) (clock_elapsedTime f * 0.5))
                 (THREE.scale star) (THREE.matrix star))) /\
  (exists group,
     groupRef s = Some group /\
     groupRef s'
       = Some (rotation_set_y
                 (clock_elapsedTime f * 0.1 + props_gestureRotation f * 5) group)).
Proof.
  intros (Hwf & Hsc & Hsized & Hstar) s' t.
  pose proof Hwf as (Hatt & _).
  destruct (useFrame_steps f s Hatt) as (group & star & Hgroup & Hstar0 & Ht & Hsteps).
  cbv zeta in Ht, Hsteps. fold s' in Ht, Hsteps. fold t in Ht.
  rewrite <- Ht in Hsteps.
  pose proof (useFrame_footprint f s) as Hfp. fold s' in Hfp.
  set (s2 := rotateGroup f group (handleTransition f s)) in *.
  set (s3 := updateLeaves f t s2) in *.
  set (s4 := updateOrnaments f t s3) in *.
  set (s5 := updateRibbons f t s4) in *.
  assert (H02 : frame_footprint s s2).
  { eapply frame_footprint_trans; [apply handleTransition_footprint |].
    by eapply rotateGroup_footprint. }
  assert (H23 : loop_footprint s2 s3) by apply updateLeaves_footprint, loop_footprint_refl.
  assert (H34 : loop_footprint s3 s4) by apply updateOrnaments_footprint, loop_footprint_refl.
  assert (H45 : loop_footprint s4 s5) by apply updateRibbons_footprint, loop_footprint_refl.
  assert (H03 : frame_footprint s s3).
  { eapply frame_footprint_trans; [exact H02 | by apply loop_footprint_frame]. }
  assert (H04 : frame_footprint s s4).
  { eapply frame_footprint_trans; [exact H03 | by apply loop_footprint_frame]. }
  assert (H05 : frame_footprint s s5).
  { eapply frame_footprint_trans; [exact H04 | by apply loop_footprint_frame]. }
  destruct (loop_ready_footprint s s2 Hwf Hsc H02) as [Hwf2 Hsc2].
  destruct (loop_ready_footprint s s3 Hwf Hsc H03) as [Hwf3 Hsc3].
  destruct (loop_ready_footprint s s4 Hwf Hsc H04) as [Hwf4 Hsc4].
  destruct (statics_data _ _ (proj1 H02)) as (Hl2 & Ho2 & Hr2 & _).
  destruct (statics_data _ _ (proj1 H03)) as (Hl3 & Ho3 & Hr3 & _).
  destruct (statics_data _ _ (proj1 H04)) as (Hl4 & Ho4 & Hr4 & _).
  destruct (statics_data _ _ (proj1 Hfp)) as (Hl' & Ho' & Hr' & _).
  destruct Hsized as ((ml & Hml & Lml) & (mo & Hmo & Lmo) & (mr & Hmr & Lmr)).
  destruct (updateLeaves_other_refs f t s2) as [Ho23 Hr23].
  destruct (updateOrnaments_other_refs f t s3) as [Hl34 Hr34].
  destruct (updateRibbons_other_refs f t s4) as [Hl45 Ho45].
  destruct (updateStar_other_refs f t star s5) as (Hl5 & Ho5 & Hr5 & Hg5).
  fold s3 in Ho23, Hr23. fold s4 in Hl34, Hr34. fold s5 in Hl45, Ho45.
  rewrite <- Hsteps in Hl5, Ho5, Hr5, Hg5.
  (* leaves *)
  destruct (updateLeaves_matrices f t s2 ml Hwf2 Hsc2) as (ml' & Hml' & Nl & Ll' & Sl);
    [exact Hml | by rewrite Hl2 |].
  fold s3 in Hml'.
  (* ornaments *)
  destruct (updateOrnaments_matrices f t s3 mo Hwf3 Hsc3) as (mo' & Hmo' & No & Lo' & So);
    [by rewrite Ho23 | by rewrite Ho3 |].
  fold s4 in Hmo'.
  (* ribbon *)
  destruct (updateRibbons_matrices f t s4 mr Hwf4 Hsc4) as (mr' & Hmr' & Nr & Lr' & Sr);
    [by rewrite Hr34, Hr23 | by rewrite Hr4 |].
  fold s5 in Hmr'.
  (* star *)
  destruct Hstar as (star' & Hstar' & Hsne & Hsp & Hss & Htl & Htw & Hel & Hew).
  rewrite Hstar0 in Hstar'. injection Hstar' as <-.
  destruct (lookup_lt_is_Some_2 _ _ Htl) as [stp Hstp].
  destruct (lookup_lt_is_Some_2 _ _ Hel) as [sep Hsep].
  destruct (statics_star _ _ (proj1 H05)) as (Ht5 & He5 & _).
  destruct H05 as (Hst05 & Hlen05 & Hsame05).
  destruct (updateStar_effect f t star s5 stp sep) as (Hpos' & Hscale' & Href');
    [done | lia | lia | | |].
  { rewrite Ht5, Hsame05 by done. done. }
  { rewrite He5, Hsame05 by done. done. }
  rewrite <- Hsteps in Hpos', Hscale', Href'.
  split; [| split; [| split; [| split; [| split]]]].
  - split; [by apply (well_formed_footprint s) |].
    split; [by apply (loop_ready_footprint s s' Hwf Hsc) |].
    split; [| apply (star_ok_footprint s); [by exists star | done]].
    split; [| split].
    + exists ml'. rewrite Hl5, Hl45, Hl34, Hl'. split; [done | congruence].
    + exists mo'. rewrite Ho5, Ho45, Ho'. split; [done | congruence].
    + exists mr'. rewrite Hr5, Hr'. split; [done | congruence].
  - exists ml'. rewrite Hl5, Hl45, Hl34. split; [done |]. split; [done |].
    intros i d Hi. apply (Sl i d). by rewrite Hl2.
  - exists mo'. rewrite Ho5, Ho45. split; [done |]. split; [done |].
    intros i d Hi. rewrite <- Ho3 in Hi.
    destruct (So i d Hi) as (tp & ep & Htp & Hep & Hlook).
    assert (Hd : d ∈ leavesData s ++ ornamentsData s ++ ribbonData s).
    { rewrite !elem_of_app. right. left. rewrite <- Ho3.
      by eapply list_elem_of_lookup_2. }
    destruct (data_cells_kept s s3 d Hwf H03 Hd) as [Ht3 He3].
    exists tp, ep. rewrite <- Ht3, <- He3. done.
  - exists mr'. rewrite Hr5. split; [done |]. split; [done |].
    intros i d Hi. rewrite <- Hr4 in Hi.
    destruct (Sr i d Hi) as (tp & ep & Htp & Hep & Hlook).
    assert (Hd : d ∈ leavesData s ++ ornamentsData s ++ ribbonData s).
    { rewrite !elem_of_app. right. right. rewrite <- Hr4.
      by eapply list_elem_of_lookup_2. }
    destruct (data_cells_kept s s4 d Hwf H04 Hd) as [Ht4 He4].
    exists tp, ep. rewrite <- Ht4, <- He4. done.
  - exists star, stp, sep. done.
  - exists group. split; [done |]. rewrite Hg5.
    destruct H45 as (_ & _ & -> & _). destruct H34 as (_ & _ & -> & _).
    destruct H23 as (_ & _ & -> & _). reflexivity.
Qed.

Lemma frames_frame_inv_from fs s : frame_inv s -> frame_inv (frames fs s).
Proof.
  revert s. induction fs as [| f fs IH]; intros s Hs; [done |].
  simpl. apply IH. by apply (useFrame_effect f s).
Qed.

Lemma mount_frame_inv random : frame_inv (mount random).
Proof.
  destruct (mount_spec random) as (Hwf & _).
  destruct (mount_spec_frame random) as (Hsc & Hsized & Hstar & _).
  done.
Qed.

Lemma frames_frame_inv random history : frame_inv (frames history (mount random)).
Proof. apply frames_frame_inv_from, mount_frame_inv. Qed.

(** What a session keeps of the mounted scene: the particle data and the
    coordinates of their vectors, the two positions of the star and their
    coordinates. *)
Lemma frames_keep_mounted random history :
  let s0 := mount random in
  let s := frames history s0 in
  leavesData s = leavesData s0 /\ ornamentsData s = ornamentsData s0 /\
  ribbonData s = ribbonData s0 /\
  (forall d, d ∈ leavesData s0 ++ ornamentsData s0 ++ ribbonData s0 ->
     heap s !! treePos d = heap s0 !! treePos d /\
     heap s !! explodePos d = heap s0 !! explodePos d) /\
  starTreePos s = starTreePos s0 /\ starExplodePos s = starExplodePos s0 /\
  heap s !! starTreePos s0 = heap s0 !! starTreePos s0 /\
  heap s !! starExplodePos s0 = heap s0 !! starExplodePos s0.
Proof.
  intros s0 s.
  pose proof (frames_footprint history s0) as Hfp. fold s in Hfp.
  destruct (mount_frame_inv random) as (Hwf & _ & _ & Hstar). fold s0 in Hwf, Hstar.
  destruct (statics_data _ _ (proj1 Hfp)) as (Hl & Ho & Hr & _).
  destruct (statics_star _ _ (proj1 Hfp)) as (Ht & He & _).
  destruct Hstar as (star & _ & _ & _ & _ & Htl & Htw & Hel & Hew).
  split; [exact Hl |]. split; [exact Ho |]. split; [exact Hr |].
  split; [intros d Hd; apply data_cells_kept; assumption |].
  split; [exact Ht |]. split; [exact He |].
  destruct Hfp as (_ & _ & Hsame). split; apply Hsame; assumption.
Qed.

(** X9. 3. Update Leaves. After every frame of a mounted component the
    leaves mesh is flagged for upload and holds one matrix per leaf: slot
    [i] is composed from the position between the tree position and the
    exploded position generated at mounting for leaf [i], taken at the new
    transition value [t], from the rotation
    [(sin(0.5 e + i), cos(0.3 e + i), 0)] and from the uniform scale
    [scale * (1 - 0.5 t)]. No slot is left over from an earlier frame or
    from another leaf. *)
Theorem useFrame_leaves_matrices (random : nat -> R) (history : list Frame) (f : Frame) :
  let s0 := mount random in
  let s' := useFrame f (frames history s0) in
  let t := transitionRef s' in
  exists m,
    leavesRef s' = Some m /\ THREE.needsUpdate m = true /\
    length (THREE.instanceMatrix m) = COUNT_LEAVES /\
    length (leavesData s0) = COUNT_LEAVES /\
    forall (i : nat) d, leavesData s0 !! i = Some d ->
      exists tp ep,
        heap s0 !! treePos d = Some tp /\ heap s0 !! explodePos d = Some ep /\
        THREE.instanceMatrix m !! i = Some (leafMatrix f t i (scale d) tp ep).
Proof.
  intros s0 s' t.
  destruct (frames_keep_mounted random history) as (Hl & _ & _ & Hcells & _).
  destruct (mount_spec random) as (_ & _ & _ & _ & _ & Hlen & _).
  destruct (useFrame_effect f _ (frames_frame_inv random history))
    as ((_ & _ & ((m' & Hm' & Lm') & _) & _) & (m & Hm & Nm & Sm) & _).
  fold s0 s' in Hm, Hm', Lm', Sm. fold t in Sm.
  exists m. split; [exact Hm |]. split; [exact Nm |].
  rewrite Hm in Hm'. injection Hm' as <-.
  destruct (statics_data _ _ (proj1 (useFrame_footprint f (frames history s0))))
    as (Hl' & _).
  fold s' in Hl'. fold s0 in Hl, Hcells, Hlen.
  split; [congruence |]. split; [exact Hlen |].
  intros i d Hi.
  assert (Hd : d ∈ leavesData s0 ++ ornamentsData s0 ++ ribbonData s0).
  { rewrite !elem_of_app. left. by eapply list_elem_of_lookup_2. }
  destruct (Hcells d Hd) as [Ht He].
  rewrite <- Hl in Hi. destruct (Sm i d Hi) as (tp & ep & Htp & Hep & Hlook).
  exists tp, ep. rewrite <- Ht, <- He.
  split; [exact Htp |]. split; [exact Hep | exact Hlook].
Qed.

(** X10. 4. Update Ornaments. After every frame the ornaments mesh is
    flagged for upload and slot [i] is composed from the position between
    the two positions generated for ornament [i] at the new transition
    value, from the rotation [(e + i, e + i, 0)] and from the scale of the
    ornament, which does not shrink. *)
Theorem useFrame_ornaments_matrices (random : nat -> R) (history : list Frame) (f : Frame) :
  let s0 := mount random in
  let s' := useFrame f (frames history s0) in
  let t := transitionRef s' in
  exists m,
    ornamentsRef s' = Some m /\ THREE.needsUpdate m = true /\
    length (THREE.instanceMatrix m) = COUNT_ORNAMENTS /\
    length (ornamentsData s0) = COUNT_ORNAMENTS /\
    forall (i : nat) d, ornamentsData s0 !! i = Some d ->
      exists tp ep,
        heap s0 !! treePos d = Some tp /\ heap s0 !! explodePos d = Some ep /\
        THREE.instanceMatrix m !! i = Some (ornamentMatrix f t i (scale d) tp ep).
Proof.
  intros s0 s' t.
  destruct (frames_keep_mounted random history) as (_ & Ho & _ & Hcells & _).
  destruct (mount_spec random) as (_ & _ & _ & _ & _ & _ & Hlen & _).
  destruct (useFrame_effect f _ (frames_frame_inv random history))
    as ((_ & _ & (_ & (m' & Hm' & Lm') & _) & _) & _ & (m & Hm & Nm & Sm) & _).
  fold s0 s' in Hm, Hm', Lm', Sm. fold t in Sm.
  exists m. split; [exact Hm |]. split; [exact Nm |].
  rewrite Hm in Hm'. injection Hm' as <-.
  destruct (statics_data _ _ (proj1 (useFrame_footprint f (frames history s0))))
    as (_ & Ho' & _).
  fold s' in Ho'. fold s0 in Ho, Hcells, Hlen.
  split; [congruence |]. split; [exact Hlen |].
  intros i d Hi.
  assert (Hd : d ∈ leavesData s0 ++ ornamentsData s0 ++ ribbonData s0).
  { rewrite !elem_of_app. right. left. by eapply list_elem_of_lookup_2. }
  destruct (Hcells d Hd) as [Ht He].
  rewrite <- Ho in Hi. destruct (Sm i d Hi) as (tp & ep & Htp & Hep & Hlook).
  exists tp, ep. rewrite <- Ht, <- He.
  split; [exact Htp |]. split; [exact Hep | exact Hlook].
Qed.

(** X11. 5. Update Ribbon. After every frame the ribbon mesh is flagged
    for upload and slot [i] is composed from the position between the
    spiral position of ribbon particle [i] and 1.5 times its stored
    exploded position, at the new transition value, from the rotation
    [(2 e + i, 0.1 i, 0)] and from the scale of the particle. *)
Theorem useFrame_ribbon_matrices (random : nat -> R) (history : list Frame) (f : Frame) :
  let s0 := mount random in
  let s' := useFrame f (frames history s0) in
  let t := transitionRef s' in
  exists m,
    ribbonRef s' = Some m /\ THREE.needsUpdate m = true /\
    length (THREE.instanceMatrix m) = COUNT_RIBBON /\
    length (ribbonData s0) = COUNT_RIBBON /\
    forall (i : nat) d, ribbonData s0 !! i = Some d ->
      exists tp ep,
        heap s0 !! treePos d = Some tp /\ heap s0 !! explodePos d = Some ep /\
        THREE.instanceMatrix m !! i = Some (ribbonMatrix f t i (scale d) tp ep).
Proof.
  intros s0 s' t.
  destruct (frames_keep_mounted random history) as (_ & _ & Hr & Hcells & _).
  destruct (mount_spec random) as (_ & _ & _ & _ & _ & _ & _ & Hlen).
  destruct (useFrame_effect f _ (frames_frame_inv random history))
    as ((_ & _ & (_ & _ & (m' & Hm' & Lm')) & _) & _ & _ & (m & Hm & Nm & Sm) & _).
  fold s0 s' in Hm, Hm', Lm', Sm. fold t in Sm.
  exists m. split; [exact Hm |]. split; [exact Nm |].
  rewrite Hm in Hm'. injection Hm' as <-.
  destruct (statics_data _ _ (proj1 (useFrame_footprint f (frames history s0))))
    as (_ & _ & Hr' & _).
  fold s' in Hr'. fold s0 in Hr, Hcells, Hlen.
  split; [congruence |]. split; [exact Hlen |].
  intros i d Hi.
  assert (Hd : d ∈ leavesData s0 ++ ornamentsData s0 ++ ribbonData s0).
  { rewrite !elem_of_app. right. right. by eapply list_elem_of_lookup_2. }
  destruct (Hcells d Hd) as [Ht He].
  rewrite <- Hr in Hi. destruct (Sm i d Hi) as (tp & ep & Htp & Hep & Hlook).
  exists tp, ep. rewrite <- Ht, <- He.
  split; [exact Htp |]. split; [exact Hep | exact Hlook].
Qed.

Lemma useFrame_upright f s : frame_inv s -> upright s -> upright (useFrame f s).
Proof.
  intros Hinv ((group & Hg & Hgx & Hgz) & (star & Hs & Hsx)).
  destruct (useFrame_effect f s Hinv)
    as (_ & _ & _ & _ & (star' & _ & _ & Hs' & _ & _ & _ & _ & Href) & (group' & Hg' & Hgref)).
  rewrite Hg in Hg'. injection Hg' as <-. rewrite Hs in Hs'. injection Hs' as <-.
  split.
  - eexists. split; [exact Hgref |]. by split.
  - eexists. split; [exact Href |]. done.
Qed.

Lemma frames_upright_from fs s :
  frame_inv s -> upright s -> frame_inv (frames fs s) /\ upright (frames fs s).
Proof.
  revert s. induction fs as [| f fs IH]; intros s Hinv Hup; [done |].
  simpl. apply IH; [by apply (useFrame_effect f s) | by apply useFrame_upright].
Qed.

Lemma frames_upright random history : upright (frames history (mount random)).
Proof.
  apply frames_upright_from; [apply mount_frame_inv |].
  destruct (mount_spec_frame random)
    as (_ & _ & _ & _ & (group & Hg & Hgr) & (star & Hs & Hsr)).
  split.
  - exists group. rewrite Hgr. by repeat split.
  - exists star. rewrite Hsr. by split.
Qed.

(** X12. 6. Update Star. After every frame the star stands between the top
    of the tree, the point [(0, TREE_HEIGHT + TREE_Y_OFFSET + 0.2, 0)] on
    the axis, and its exploded position generated at mounting, at the new
    transition value [t]; it is turned by [0.2 sin e] about the vertical
    and by [0.5 e] about its own axis; its uniform scale is the pulse
    [(1 + 0.1 sin (4 e)) * (1 - 0.3 t)], which stays within [0.63, 1.1]
    while [t] is in [0,1]. *)
Theorem useFrame_star (random : nat -> R) (history : list Frame) (f : Frame) :
  let s0 := mount random in
  let s' := useFrame f (frames history s0) in
  let t := transitionRef s' in
  let k := (1 + sin (clock_elapsedTime f * 4) * 0.1) * (1 - t * 0.3) in
  exists star sep,
    starRef s' = Some star /\
    THREE.rotation star
      = THREE.mkEuler 0 (sin (clock_elapsedTime f) * 0.2) (clock_elapsedTime f * 0.5) /\
    heap s0 !! starExplodePos s0 = Some sep /\
    heap s' !! THREE.position star
      = Some (THREE.lerpVectors (mkVector3 0 (TREE_HEIGHT + TREE_Y_OFFSET + 0.2) 0) sep t) /\
    heap s' !! THREE.scale star = Some (THREE.setScalar k) /\
    (0 <= t <= 1 -> 0.63 <= k <= 1.1).
Proof.
  intros s0 s' t k.
  destruct (frames_keep_mounted random history) as (_ & _ & _ & _ & Ht & He & Hct & Hce).
  destruct (mount_spec_frame random) as (_ & _ & _ & Htop & _).
  destruct (frames_upright random history) as (_ & (star0 & Hs0 & Hsx)).
  destruct (useFrame_effect f _ (frames_frame_inv random history))
    as (_ & _ & _ & _ & (star & stp & sep & Hs & Hstp & Hsep & Hpos & Hscale & Href) & _).
  fold s0 in Ht, He, Hct, Hce, Htop, Hs0, Hs, Hstp, Hsep, Hpos, Hscale, Href.
  fold s' in Hpos, Hscale, Href. fold t in Hpos, Hscale. fold k in Hscale.
  rewrite Hs0 in Hs. injection Hs as <-.
  rewrite Ht, Hct, Htop in Hstp. injection Hstp as <-.
  rewrite He, Hce in Hsep.
  eexists. exists sep. split; [exact Href |]. simpl. rewrite Hsx.
  split; [reflexivity |]. split; [exact Hsep |]. split; [exact Hpos |].
  split; [exact Hscale |].
  intros Hunit. unfold k.
  pose proof (SIN_bound (clock_elapsedTime f * 4)) as Hsin. nra.
Qed.

(** X13. 2. Rotate entire group. After every frame the group is turned
    about the vertical axis only, by [0.1 e + 5 g] for the clock [e] and
    the gesture rotation [g] of the frame: the angle of the previous frame
    is not accumulated. *)
Theorem useFrame_group_rotation (random : nat -> R) (history : list Frame) (f : Frame) :
  exists group,
    groupRef (useFrame f (frames history (mount random))) = Some group /\
    THREE.rotation group
    = THREE.mkEuler 0 (clock_elapsedTime f * 0.1 + props_gestureRotation f * 5) 0.
Proof.
  destruct (frames_upright random history) as ((group0 & Hg0 & Hgx & Hgz) & _).
  destruct (useFrame_effect f _ (frames_frame_inv random history))
    as (_ & _ & _ & _ & _ & (group & Hg & Hgref)).
  rewrite Hg0 in Hg. injection Hg as <-.
  eexists. split; [exact Hgref |]. simpl. by rewrite Hgx, Hgz.
Qed.

(** X14. From the camera to the tree. Let a processed video frame show a
    hand of 21 landmarks, and let the next animation frame take its props
    from the application state that results. Then the group is turned by
    [0.1 e + 5 (1 - 2 x)] for the horizontal coordinate [x] of the palm
    landmark; a pinching hand makes the transition value the old one times
    [1 - 2.5 delta] (towards the tree), and an open hand moves it by
    [2.5 delta] of its distance to 1 (towards the explosion). *)
Theorem gesture_drives_frame
    (p0 p1 p2 p3 p4 p5 p6 p7 p8 p9 p10 p11 p12 p13 p14 p15 p16 p17 p18 p19 p20 :
       NormalizedLandmark)
    (others : list (list NormalizedLandmark)) (currentTime : R) (c : Controller App)
    (random : nat -> R) (history : list Frame) (e dt : R) :
  currentTime <> lastVideoTime c ->
  let s := frames history (mount random) in
  exists app' group,
    predictWebcam handleGestureStateChange handleModeTrigger true currentTime
      ([p0; p1; p2; p3; p4; p5; p6; p7; p8; p9; p10;
        p11; p12; p13; p14; p15; p16; p17; p18; p19; p20] :: others) c
    = Some (mkController currentTime app') /\
    groupRef (useFrame (App_frame app' e dt) s) = Some group /\
    THREE.rotation group = THREE.mkEuler 0 (e * 0.1 + (1 - 2 * lx p9) * 5) 0 /\
    (isPinching (gestureState app') = true ->
       transitionRef (useFrame (App_frame app' e dt) s)
       = (1 - dt * 2.5) * transitionRef s) /\
    (isOpen (gestureState app') = true ->
       transitionRef (useFrame (App_frame app' e dt) s)
       = transitionRef s + (1 - transitionRef s) * (dt * 2.5)).
Proof.
  intros Hne s. unfold predictWebcam. simpl negb. cbv iota.
  destruct (Req_dec_T currentTime (lastVideoTime c)) as [Heq | _]; [done |].
  destruct (gestureLogic_App p0 p1 p2 p3 p4 p5 p6 p7 p8 p9 p10 p11 p12 p13 p14
              p15 p16 p17 p18 p19 p20 (parent c)) as (pinch & wide & _ & ->).
  simpl. eexists.
  destruct (frames_upright random history) as ((group0 & Hg0 & Hgx & Hgz) & _).
  destruct (useFrame_effect
              (App_frame (mkApp (if wide && negb pinch then EXPLODE
                                 else if pinch then TREE else mode (parent c))
                            (mkGestureState true pinch (wide && negb pinch)
                               (1.0 - lx p9, ly p9) ((1.0 - lx p9 - 0.5) * 2))) e dt)
              _ (frames_frame_inv random history))
    as (_ & _ & _ & _ & _ & (group & Hg & Hgref)).
  rewrite Hg0 in Hg. injection Hg as <-.
  eexists. split; [reflexivity |]. split; [exact Hgref |].
  split; [simpl; rewrite Hgx, Hgz; f_equal; lra |].
  unfold s.
  rewrite (useFrame_transition _ _ (frames_all_attached random history)).
  unfold THREE.lerp. simpl.
  destruct pinch, wide; simpl; split; intros Hflag; try discriminate Hflag; ring.
Qed.

Lemma gesture_drives_frame_witness :
  exists app' group,
    predictWebcam handleGestureStateChange handleModeTrigger true 0
      ([centre; centre; centre; centre; centre; centre; centre; centre; centre; centre;
        centre; centre; centre; centre; centre; centre; centre; centre; centre; centre;
        centre] :: []) controller0 = Some (mkController 0 app') /\
    groupRef (useFrame (App_frame app' 1 (1 / 60)) (frames [] (mount (fun _ => 1 / 2))))
    = Some group.
Proof.
  destruct (gesture_drives_frame
              centre centre centre centre centre centre centre centre centre centre centre
              centre centre centre centre centre centre centre centre centre centre
              [] 0 controller0 (fun _ => 1 / 2) [] 1 (1 / 60))
    as (app' & group & Hrun & Hg & _).
  - simpl. lra.
  - exists app', group. split; [exact Hrun | exact Hg].
Defined.

(** ** components/ChristmasTree: where the particles are *)

Lemma keeps_refl w : keeps w w.
Proof. by split. Qed.

Lemma keeps_trans w1 w2 w3 : keeps w1 w2 -> keeps w2 w3 -> keeps w1 w3.
Proof. intros [Hr Hk] [Hr' Hk']. split; [congruence | auto]. Qed.

Lemma particle_within_keeps tree explode w w' d :
  keeps w w' ->
  particle_within tree explode (objs w) d -> particle_within tree explode (objs w') d.
Proof.
  intros [_ Hk] (tp & ep & Ht & He & Htree & Hexp).
  exists tp, ep. repeat split; auto.
Qed.

(** One call of each utility: the vector it creates, where it puts it and
    what it consumes. *)
Lemma getTreePosition_run index total radiusBase height yOffset w :
  0 <= index < total -> 0 < height -> 0 <= radiusBase ->
  0 <= rnd w (draws w) < 1 ->
  exists v,
    getTreePosition index total radiusBase height (Some yOffset) w
    = (length (objs w), mkWorld (rnd w) (S (draws w)) (objs w ++ [v])) /\
    in_cone radiusBase height yOffset v.
Proof.
  intros Hidx Hh Hrb Hrand.
  pose proof (ratio_unit index total Hidx) as Hq.
  eexists. split; [reflexivity |].
  unfold in_cone, radial. simpl.
  set (q := index / total) in *.
  replace (q * height / height) with q by (field; lra).
  replace ((q * height + yOffset - yOffset) / height) with q by (field; lra).
  set (noise := (rnd w (draws w) - 0.5) * 0.5).
  assert (Hfr : 0 <= Rmax 0 (radiusBase * (1 - q) + noise)) by apply Rmax_l.
  rewrite Math_hypot_polar by done.
  split; [nra |]. apply Rmax_lub; unfold noise; nra.
Qed.

Lemma getRandomSpherePoint_run radius w :
  0 <= radius -> 0 <= rnd w (S (S (draws w))) < 1 ->
  exists v,
    getRandomSpherePoint radius w
    = (length (objs w), mkWorld (rnd w) (S (S (S (draws w)))) (objs w ++ [v])) /\
    in_ball radius v.
Proof.
  intros Hrad Hc.
  destruct (Math_cbrt_unit (rnd w (S (S (draws w))))) as [Hc0 Hc1]; [lra |].
  eexists. split; [reflexivity |].
  unfold in_ball. rewrite sphere_point_length by (by apply Rmult_le_pos).
  rewrite <- (Rmult_1_l radius) at 2. by apply Rmult_le_compat_r.
Qed.

Lemma getRibbonPosition_run t radiusBase height turns yOffset w :
  0 <= t < 1 -> 0 < height -> 0 <= radiusBase ->
  exists v,
    getRibbonPosition t radiusBase height turns (Some yOffset) w
    = (length (objs w), mkWorld (rnd w) (draws w) (objs w ++ [v])) /\
    in_cylinder (radiusBase + 0.2) yOffset (yOffset + height) v /\ 0.2 <= radial v.
Proof.
  intros Ht Hh Hrb. eexists. split; [reflexivity |].
  unfold in_cylinder, radial. simpl.
  rewrite Math_hypot_polar by nra. split; [split |]; nra.
Qed.

(** The index of an element of the array, as the number the utilities
    receive. *)
Lemma index_ratio (i n : nat) : i ∈ seq 0 n -> 0 <= INR i < INR n.
Proof.
  rewrite elem_of_seq. intros [_ Hi]. split; [apply pos_INR | apply lt_INR; lia].
Qed.

(** Elements made by [f] from the elements of [xs] satisfy [P], when [P]
    is kept by every later world. *)
Lemma traverse_within {A B} (f : A -> M B) (I : World -> Prop) (P : list Vector3 -> B -> Prop)
    (xs : list A) :
  (forall a w, a ∈ xs -> I w ->
     I (snd (f a w)) /\ keeps w (snd (f a w)) /\ P (objs (snd (f a w))) (fst (f a w))) ->
  (forall w w' b, keeps w w' -> P (objs w) b -> P (objs w') b) ->
  forall w, I w ->
    I (snd (traverse f xs w)) /\ keeps w (snd (traverse f xs w)) /\
    Forall (P (objs (snd (traverse f xs w)))) (fst (traverse f xs w)).
Proof.
  intros Hf Hkeep. induction xs as [| a xs IH]; intros w Hw; simpl.
  - split; [done |]. split; [apply keeps_refl | constructor].
  - destruct (Hf a w) as (Hw' & Hk & Hb); [left | done |].
    destruct IH with (w := snd (f a w)) as (Hw'' & Hk' & Hbs); [| done |].
    { intros a' w0 Ha'. apply Hf. by right. }
    split; [done |]. split; [by eapply keeps_trans |].
    constructor; [| done]. by apply (Hkeep (snd (f a w))).
Qed.

Lemma keeps_app w (draws' : nat) (vs : list Vector3) :
  keeps w (mkWorld (rnd w) draws' (objs w ++ vs)).
Proof. split; [done |]. intros l v Hl. simpl. by apply lookup_app_l_Some. Qed.

Lemma lookup_snoc_new {A} (l : list A) (a : A) : (l ++ [a]) !! length l = Some a.
Proof. rewrite lookup_app_r, Nat.sub_diag; [done | lia]. Qed.

Lemma lookup_snoc2_old {A} (l : list A) (a b : A) : ((l ++ [a]) ++ [b]) !! length l = Some a.
Proof. rewrite lookup_app_l; [apply lookup_snoc_new | rewrite length_app; simpl; lia]. Qed.

Lemma alter_snoc {A} (g : A -> A) (l : list A) (a : A) :
  alter g (length l) (l ++ [a]) = l ++ [g a].
Proof.
  replace (length l) with (length l + 0)%nat at 1 by lia.
  by rewrite alter_app_r.
Qed.

Transparent leavesData_init ornamentsData_init ribbonData_init.

Lemma leavesData_init_within random w :
  (forall k, 0 <= random k < 1) -> rnd w = random ->
  rnd (snd (leavesData_init w)) = random /\
  keeps w (snd (leavesData_init w)) /\
  Forall (particle_within (in_cone TREE_RADIUS TREE_HEIGHT TREE_Y_OFFSET)
            (in_ball EXPLOSION_RADIUS) (objs (snd (leavesData_init w))))
         (fst (leavesData_init w)).
Proof.
  intros Hrandom. unfold leavesData_init, Array_from_map.
  apply (traverse_within _ (fun w => rnd w = random)).
  - intros i w' Hi Hw'. unfold bind.
    destruct (getTreePosition_run (INR i) (INR COUNT_LEAVES) TREE_RADIUS TREE_HEIGHT
                TREE_Y_OFFSET w') as (tp & -> & Htp);
      [by apply index_ratio | unfold TREE_HEIGHT; lra | unfold TREE_RADIUS; lra
      | rewrite Hw'; apply Hrandom |].
    cbn [fst snd].
    destruct (getRandomSpherePoint_run EXPLOSION_RADIUS
                (mkWorld (rnd w') (S (draws w')) (objs w' ++ [tp]))) as (ep & -> & Hep);
      [unfold EXPLOSION_RADIUS; lra | cbn [rnd draws]; rewrite Hw'; apply Hrandom |].
    cbn [fst snd rnd draws objs Math_random ret].
    split; [done |]. split.
    + rewrite <- app_assoc. split; [done |]. intros l v Hl. by apply lookup_app_l_Some.
    + exists tp, ep. cbn [treePos explodePos].
      split; [apply lookup_snoc2_old |]. split; [apply lookup_snoc_new |]. done.
  - intros w1 w2 d. apply particle_within_keeps.
Qed.

Lemma ornamentsData_init_within random w :
  (forall k, 0 <= random k < 1) -> rnd w = random ->
  rnd (snd (ornamentsData_init w)) = random /\
  keeps w (snd (ornamentsData_init w)) /\
  Forall (particle_within
            (in_cylinder (TREE_RADIUS * 1.1 + 0.25) (TREE_Y_OFFSET - 0.5)
               (TREE_Y_OFFSET + TREE_HEIGHT + 0.5))
            (in_ball (EXPLOSION_RADIUS * 1.2)) (objs (snd (ornamentsData_init w))))
         (fst (ornamentsData_init w)).
Proof.
  intros Hrandom. unfold ornamentsData_init, Array_from_map.
  apply (traverse_within _ (fun w => rnd w = random)).
  - intros i w' Hi Hw'. unfold bind.
    destruct (getTreePosition_run (INR i) (INR COUNT_ORNAMENTS) (TREE_RADIUS * 1.1)
                TREE_HEIGHT TREE_Y_OFFSET w') as (tp & -> & Htp);
      [by apply index_ratio | unfold TREE_HEIGHT; lra | unfold TREE_RADIUS; lra
      | rewrite Hw'; apply Hrandom |].
    cbn [fst snd Math_random Vector3_add_y rnd draws objs].
    rewrite !alter_snoc.
    set (tp' := mkVector3 _ _ _).
    destruct (getRandomSpherePoint_run (EXPLOSION_RADIUS * 1.2)
                (mkWorld (rnd w') (S (S (draws w'))) (objs w' ++ [tp']))) as (ep & -> & Hep);
      [unfold EXPLOSION_RADIUS; lra | cbn [rnd draws]; rewrite Hw'; apply Hrandom |].
    cbn [fst snd rnd draws objs ret].
    split; [done |]. split.
    + rewrite <- app_assoc. split; [done |]. intros l v Hl. by apply lookup_app_l_Some.
    + exists tp', ep. cbn [treePos explodePos].
      split; [apply lookup_snoc2_old |]. split; [apply lookup_snoc_new |].
      split; [| done].
      destruct Htp as [Hy Hr]. unfold in_cylinder, radial, tp' in *. simpl.
      pose proof (Hrandom (S (draws w'))) as Hj. rewrite <- Hw' in Hj.
      unfold TREE_HEIGHT, TREE_Y_OFFSET, TREE_RADIUS in *.
      split; lra.
  - intros w1 w2 d. apply particle_within_keeps.
Qed.

Lemma ribbonData_init_within random w :
  (forall k, 0 <= random k < 1) -> rnd w = random ->
  rnd (snd (ribbonData_init w)) = random /\
  keeps w (snd (ribbonData_init w)) /\
  Forall (particle_within
            (fun v => in_cylinder (TREE_RADIUS + 0.2 + 0.2) TREE_Y_OFFSET
                        (TREE_Y_OFFSET + TREE_HEIGHT) v /\ 0.2 <= radial v)
            (in_ball (EXPLOSION_RADIUS * 1.5)) (objs (snd (ribbonData_init w))))
         (fst (ribbonData_init w)).
Proof.
  intros Hrandom. unfold ribbonData_init, Array_from_map.
  apply (traverse_within _ (fun w => rnd w = random)).
  - intros i w' Hi Hw'. unfold bind. cbv zeta.
    destruct (getRibbonPosition_run (INR i / INR COUNT_RIBBON) (TREE_RADIUS + 0.2)
                TREE_HEIGHT 3.5 TREE_Y_OFFSET w') as (tp & -> & Htp);
      [apply ratio_unit; by apply index_ratio | unfold TREE_HEIGHT; lra
      | unfold TREE_RADIUS; lra |].
    cbn [fst snd].
    destruct (getRandomSpherePoint_run (EXPLOSION_RADIUS * 1.5)
                (mkWorld (rnd w') (draws w') (objs w' ++ [tp]))) as (ep & -> & Hep);
      [unfold EXPLOSION_RADIUS; lra | cbn [rnd draws]; rewrite Hw'; apply Hrandom |].
    cbn [fst snd rnd draws objs ret].
    split; [done |]. split.
    + rewrite <- app_assoc. split; [done |]. intros l v Hl. by apply lookup_app_l_Some.
    + exists tp, ep. cbn [treePos explodePos].
      split; [apply lookup_snoc2_old |]. split; [apply lookup_snoc_new |]. done.
  - intros w1 w2 d. apply particle_within_keeps.
Qed.

Opaque leavesData_init ornamentsData_init ribbonData_init.

Lemma particle_within_app tree explode vs more d :
  particle_within tree explode vs d -> particle_within tree explode (vs ++ more) d.
Proof.
  intros (tp & ep & Ht & He & Htree & Hexp). exists tp, ep.
  repeat split; try done; by apply lookup_app_l_Some.
Qed.

Transparent mount.

(** Where mounting puts the particles and the exploded star. *)
Lemma mount_geometry (random : nat -> R) :
  (forall k, 0 <= random k < 1) ->
  Forall (particle_within (in_cone TREE_RADIUS TREE_HEIGHT TREE_Y_OFFSET)
            (in_ball EXPLOSION_RADIUS) (heap (mount random)))
         (leavesData (mount random)) /\
  Forall (particle_within
            (in_cylinder (TREE_RADIUS * 1.1 + 0.25) (TREE_Y_OFFSET - 0.5)
               (TREE_Y_OFFSET + TREE_HEIGHT + 0.5))
            (in_ball (EXPLOSION_RADIUS * 1.2)) (heap (mount random)))
         (ornamentsData (mount random)) /\
  Forall (particle_within
            (fun v => in_cylinder (TREE_RADIUS + 0.2 + 0.2) TREE_Y_OFFSET
                        (TREE_Y_OFFSET + TREE_HEIGHT) v /\ 0.2 <= radial v)
            (in_ball (EXPLOSION_RADIUS * 1.5)) (heap (mount random)))
         (ribbonData (mount random)) /\
  (exists v, heap (mount random) !! starExplodePos (mount random) = Some v /\
             in_ball (EXPLOSION_RADIUS * 0.8) v).
Proof.
  intros Hrandom.
  pose proof (fun w => leavesData_init_within random w Hrandom) as Hl.
  pose proof (fun w => ornamentsData_init_within random w Hrandom) as Ho.
  pose proof (fun w => ribbonData_init_within random w Hrandom) as Hr.
  unfold mount, render.
  generalize (new_InstancedMesh COUNT_LEAVES) (new_InstancedMesh COUNT_ORNAMENTS)
             (new_InstancedMesh COUNT_RIBBON).
  revert Hl Ho Hr.
  generalize leavesData_init ornamentsData_init ribbonData_init.
  intros gl go gr Hl Ho Hr ml mo mr.
  unfold bind. simpl.
  set (w1 := mkWorld random 0 _).
  destruct (Hl w1) as (H2 & _ & Fl); [done |].
  destruct (gl w1) as [leaves w2]. simpl in *.
  destruct (Ho w2 H2) as (H3 & K23 & Fo).
  destruct (go w2) as [ornaments w3]. simpl in *.
  destruct (Hr w3 H3) as (H4 & K34 & Fr).
  destruct (gr w3) as [ribbon w4]. simpl in *.
  clear Hl Ho Hr.
  rewrite <- !app_assoc. simpl.
  split; [| split; [| split]].
  - eapply Forall_impl; [exact Fl |]. intros d Hd.
    apply particle_within_app, (particle_within_keeps _ _ w3); [done |].
    by apply (particle_within_keeps _ _ w2).
  - eapply Forall_impl; [exact Fo |]. intros d Hd.
    by apply particle_within_app, (particle_within_keeps _ _ w3).
  - eapply Forall_impl; [exact Fr |]. intros d Hd. by apply particle_within_app.
  - eexists. split.
    + rewrite lookup_app_r, Nat.sub_diag by lia. reflexivity.
    + unfold in_ball.
      destruct (Math_cbrt_unit (rnd w4 (S (S (draws w4))))) as [Hc0 Hc1];
        [rewrite H4; specialize (Hrandom (S (S (draws w4)))); lra |].
      assert (Hrad : 0 <= EXPLOSION_RADIUS * 0.8) by (unfold EXPLOSION_RADIUS; lra).
      rewrite sphere_point_length by (by apply Rmult_le_pos).
      rewrite <- (Rmult_1_l (EXPLOSION_RADIUS * 0.8)) at 2. by apply Rmult_le_compat_r.
Qed.

Opaque mount.

Lemma particle_within_same tree explode vs vs' d :
  vs' !! treePos d = vs !! treePos d -> vs' !! explodePos d = vs !! explodePos d ->
  particle_within tree explode vs d -> particle_within tree explode vs' d.
Proof.
  intros Ht He (tp & ep & Htp & Hep & Htree & Hexp). exists tp, ep.
  rewrite Ht, He. done.
Qed.

(** X15. Every leaf has, at mounting and after any number of frames, a
    tree position inside the cone of the tree thickened by the noise (its
    height above the base of the tree is in [0, TREE_HEIGHT) and its
    distance from the axis is at most
    [TREE_RADIUS * (1 - height / TREE_HEIGHT) + 0.25]) and an exploded
    position inside the ball of radius [EXPLOSION_RADIUS]. *)
Theorem leaves_stay_in_cone_and_ball (random : nat -> R) (history : list Frame) :
  (forall k, 0 <= random k < 1) ->
  let s := frames history (mount random) in
  Forall (particle_within (in_cone TREE_RADIUS TREE_HEIGHT TREE_Y_OFFSET)
            (in_ball EXPLOSION_RADIUS) (heap s)) (leavesData s).
Proof.
  intros Hrandom s.
  destruct (mount_geometry random Hrandom) as (Hgeo & _).
  destruct (frames_keep_mounted random history) as (Hl & _ & _ & Hcells & _).
  fold s in Hl, Hcells. rewrite Hl.
  apply Forall_forall. intros d Hd.
  destruct (Hcells d) as [Ht He]; [apply elem_of_app; left; exact Hd |].
  apply (particle_within_same _ _ _ _ _ Ht He).
  rewrite Forall_forall in Hgeo. apply Hgeo. exact Hd.
Qed.

Lemma leaves_stay_in_cone_and_ball_witness :
  Forall (particle_within (in_cone TREE_RADIUS TREE_HEIGHT TREE_Y_OFFSET)
            (in_ball EXPLOSION_RADIUS) (heap (frames [frame60] (mount (fun _ => 1 / 2)))))
         (leavesData (frames [frame60] (mount (fun _ => 1 / 2)))).
Proof.
  exact (leaves_stay_in_cone_and_ball (fun _ => 1 / 2) [frame60] (fun _ => ltac:(lra))).
Defined.

(** X16. Every ornament has, at mounting and after any number of frames, a
    tree position at most half a unit below the base or above the top of
    the tree and within [1.1 * TREE_RADIUS + 0.25] of the axis, and an
    exploded position inside the ball of radius [1.2 * EXPLOSION_RADIUS]. *)
Theorem ornaments_stay_in_cylinder_and_ball (random : nat -> R) (history : list Frame) :
  (forall k, 0 <= random k < 1) ->
  let s := frames history (mount random) in
  Forall (particle_within
            (in_cylinder (TREE_RADIUS * 1.1 + 0.25) (TREE_Y_OFFSET - 0.5)
               (TREE_Y_OFFSET + TREE_HEIGHT + 0.5))
            (in_ball (EXPLOSION_RADIUS * 1.2)) (heap s)) (ornamentsData s).
Proof.
  intros Hrandom s.
  destruct (mount_geometry random Hrandom) as (_ & Hgeo & _).
  destruct (frames_keep_mounted random history) as (_ & Ho & _ & Hcells & _).
  fold s in Ho, Hcells. rewrite Ho.
  apply Forall_forall. intros d Hd.
  destruct (Hcells d) as [Ht He];
    [apply elem_of_app; right; apply elem_of_app; left; exact Hd |].
  apply (particle_within_same _ _ _ _ _ Ht He).
  rewrite Forall_forall in Hgeo. apply Hgeo. exact Hd.
Qed.

Lemma ornaments_stay_in_cylinder_and_ball_witness :
  Forall (particle_within
            (in_cylinder (TREE_RADIUS * 1.1 + 0.25) (TREE_Y_OFFSET - 0.5)
               (TREE_Y_OFFSET + TREE_HEIGHT + 0.5))
            (in_ball (EXPLOSION_RADIUS * 1.2))
            (heap (frames [frame60] (mount (fun _ => 1 / 2)))))
         (ornamentsData (frames [frame60] (mount (fun _ => 1 / 2)))).
Proof.
  exact (ornaments_stay_in_cylinder_and_ball (fun _ => 1 / 2) [frame60]
           (fun _ => ltac:(lra))).
Defined.

(** X17. Every ribbon particle has, at mounting and after any number of
    frames, a tree position between the base and the top of the tree at a
    distance from the axis between 0.2 and [TREE_RADIUS + 0.4], and a
    stored exploded position inside the ball of radius
    [1.5 * EXPLOSION_RADIUS]. *)
Theorem ribbon_stays_in_cylinder_and_ball (random : nat -> R) (history : list Frame) :
  (forall k, 0 <= random k < 1) ->
  let s := frames history (mount random) in
  Forall (particle_within
            (fun v => in_cylinder (TREE_RADIUS + 0.2 + 0.2) TREE_Y_OFFSET
                        (TREE_Y_OFFSET + TREE_HEIGHT) v /\ 0.2 <= radial v)
            (in_ball (EXPLOSION_RADIUS * 1.5)) (heap s)) (ribbonData s).
Proof.
  intros Hrandom s.
  destruct (mount_geometry random Hrandom) as (_ & _ & Hgeo & _).
  destruct (frames_keep_mounted random history) as (_ & _ & Hr & Hcells & _).
  fold s in Hr, Hcells. rewrite Hr.
  apply Forall_forall. intros d Hd.
  destruct (Hcells d) as [Ht He];
    [apply elem_of_app; right; apply elem_of_app; right; exact Hd |].
  apply (particle_within_same _ _ _ _ _ Ht He).
  rewrite Forall_forall in Hgeo. apply Hgeo. exact Hd.
Qed.

Lemma ribbon_stays_in_cylinder_and_ball_witness :
  Forall (particle_within
            (fun v => in_cylinder (TREE_RADIUS + 0.2 + 0.2) TREE_Y_OFFSET
                        (TREE_Y_OFFSET + TREE_HEIGHT) v /\ 0.2 <= radial v)
            (in_ball (EXPLOSION_RADIUS * 1.5))
            (heap (frames [frame60] (mount (fun _ => 1 / 2)))))
         (ribbonData (frames [frame60] (mount (fun _ => 1 / 2)))).
Proof.
  exact (ribbon_stays_in_cylinder_and_ball (fun _ => 1 / 2) [frame60]
           (fun _ => ltac:(lra))).
Defined.

(** ** components/ChristmasTree: initial setup (colors) *)

(** A loop that draws one number per instance and stores a colour made
    from it fills the slots of its range, in the order of the draws. *)
Lemma for_range_colors (count : nat) (make : R -> Color) :
  forall len start (buf : list Color) w,
    length buf = count -> (start + len <= count)%nat ->
    exists buf',
      for_range (fun i instanceColor =>
                   let* rand := Math_random in
                   ret (setColorAt count i (make rand) instanceColor))
                start len (Some buf) w
      = (Some buf', mkWorld (rnd w) (draws w + len) (objs w)) /\
      length buf' = count /\
      (forall j : nat, (j < start)%nat -> buf' !! j = buf !! j) /\
      (forall k : nat, (k < len)%nat ->
         buf' !! (start + k)%nat = Some (make (rnd w (draws w + k)%nat))).
Proof.
  set (body := fun (i : nat) (instanceColor : option (list Color)) =>
                 let* rand := Math_random in
                 ret (setColorAt count i (make rand) instanceColor)).
  assert (Hbody : forall i buf w,
             body i (Some buf) w
             = (Some (<[i := make (rnd w (draws w))]> buf),
                mkWorld (rnd w) (S (draws w)) (objs w))) by reflexivity.
  induction len as [| len IH]; intros start buf w Hlen Hrange.
  - exists buf. simpl. unfold ret. rewrite Nat.add_0_r. destruct w.
    repeat split; try done. intros k Hk. lia.
  - destruct (IH (S start) (<[start := make (rnd w (draws w))]> buf)
                (mkWorld (rnd w) (S (draws w)) (objs w)))
      as (buf' & Hrun & Hlen' & Hbefore & Hslots);
      [by rewrite length_insert | lia |].
    exists buf'. cbn [for_range]. unfold bind at 1. rewrite Hbody. cbn [fst snd].
    rewrite Hrun. cbn [rnd draws objs].
    split; [f_equal; f_equal; lia |]. split; [done |]. split.
    + intros j Hj. rewrite Hbefore by lia. apply list_lookup_insert_ne. lia.
    + intros [| k] Hk.
      * rewrite !Nat.add_0_r, Hbefore by lia. apply list_lookup_insert_eq. lia.
      * rewrite <- Nat.add_succ_comm, Hslots by lia. cbn [rnd draws].
        do 2 f_equal. f_equal. lia.
Qed.

Lemma Color_lerpColors_between c1 c2 a :
  0 <= a <= 1 -> Color_between c1 c2 (Color_lerpColors c1 c2 a).
Proof.
  intros Ha. unfold Color_between, Color_lerpColors. simpl.
  repeat split;
    match goal with
    | |- Rmin ?x ?y <= _ =>
        pose proof (Rmin_l x y); pose proof (Rmin_r x y); nra
    | |- _ <= Rmax ?x ?y =>
        pose proof (Rmax_l x y); pose proof (Rmax_r x y); nra
    end.
Qed.

Transparent COUNT_LEAVES COUNT_ORNAMENTS COUNT_RIBBON.

Lemma COUNT_positive : (0 < COUNT_LEAVES /\ 0 < COUNT_ORNAMENTS /\ 0 < COUNT_RIBBON)%nat.
Proof. unfold COUNT_LEAVES, COUNT_ORNAMENTS, COUNT_RIBBON. lia. Qed.

Opaque COUNT_LEAVES COUNT_ORNAMENTS COUNT_RIBBON.

(** The first call of [setColorAt] creates the buffer. *)
Lemma for_range_colors_created (count : nat) (make : R -> Color) start len w :
  (0 < len)%nat ->
  for_range (fun i instanceColor =>
               let* rand := Math_random in
               ret (setColorAt count i (make rand) instanceColor))
            start len None w
  = for_range (fun i instanceColor =>
                 let* rand := Math_random in
                 ret (setColorAt count i (make rand) instanceColor))
              start len (Some (replicate count (mkColor 1 1 1))) w.
Proof. destruct len; [lia | reflexivity]. Qed.

(** X18. Initial setup (colors). Run on meshes without instance colours,
    with draws in [0,1), the effect creates both buffers with one slot per
    instance and fills every slot: each leaf colour is a blend of the two
    leaf colours of the theme, every channel lying between theirs, and
    each ornament colour is the ornament colour of the theme times a
    brightness in [0.8, 1.2). It consumes one draw per leaf and per
    ornament. *)
Theorem setupColors_fills (colorA colorB ornColor : Color) (w : World) :
  (forall k, 0 <= rnd w k < 1) ->
  exists leaves ornaments,
    setupColors colorA colorB ornColor None None w
    = ((Some leaves, Some ornaments),
       mkWorld (rnd w) (draws w + COUNT_LEAVES + COUNT_ORNAMENTS) (objs w)) /\
    length leaves = COUNT_LEAVES /\ length ornaments = COUNT_ORNAMENTS /\
    (forall i : nat, (i < COUNT_LEAVES)%nat ->
       exists c, leaves !! i = Some c /\ Color_between colorA colorB c) /\
    (forall i : nat, (i < COUNT_ORNAMENTS)%nat ->
       exists k, 0.8 <= k < 1.2 /\
                 ornaments !! i = Some (Color_copy_multiplyScalar ornColor k)).
Proof.
  intros Hrandom. destruct COUNT_positive as (Hl & Ho & _).
  unfold setupColors. cbv zeta.
  generalize dependent COUNT_ORNAMENTS. generalize dependent COUNT_LEAVES.
  intros nl Hl no Ho.
  destruct (for_range_colors nl (Color_lerpColors colorA colorB) nl 0
              (replicate nl (mkColor 1 1 1)) w)
    as (leaves & Hrun & Hlen & _ & Hslots); [apply length_replicate | lia |].
  set (w' := mkWorld (rnd w) (draws w + nl) (objs w)) in *.
  destruct (for_range_colors no (fun rand => Color_copy_multiplyScalar ornColor (0.8 + rand * 0.4))
              no 0 (replicate no (mkColor 1 1 1)) w')
    as (ornaments & Hrun' & Hlen' & _ & Hslots'); [apply length_replicate | lia |].
  exists leaves, ornaments.
  unfold bind at 1. rewrite for_range_colors_created, Hrun by done. cbn [fst snd].
  unfold bind at 1. rewrite for_range_colors_created, Hrun' by done. cbn [fst snd ret].
  split; [reflexivity |]. split; [done |]. split; [done |]. split.
  - intros i Hi. eexists. split; [apply (Hslots i Hi) |].
    apply Color_lerpColors_between. specialize (Hrandom (draws w + i)%nat). lra.
  - intros i Hi. eexists. split; [| apply (Hslots' i Hi)].
    specialize (Hrandom (draws w' + i)%nat). cbn [rnd w'] in *. lra.
Qed.

Lemma setupColors_fills_witness :
  exists leaves ornaments,
    fst (setupColors (mkColor 1 0 0) (mkColor 0 0 1) (mkColor 1 1 0) None None world0)
    = (Some leaves, Some ornaments).
Proof.
  destruct (setupColors_fills (mkColor 1 0 0) (mkColor 0 0 1) (mkColor 1 1 0) world0)
    as (leaves & ornaments & Hrun & _).
  - intros k. simpl. lra.
  - exists leaves, ornaments. by rewrite Hrun.
Defined.

(** ** components/ChristmasTree: the vectors a frame creates *)

Lemma updateLeaf_heap_length f t d i s :
  length (heap (updateLeaf f t d i s)) = length (heap s).
Proof.
  unfold updateLeaf, dummy_updateMatrix, dummy_scale_setScalar, dummy_rotation_set,
    dummy_position_lerpVectors.
  cbn [heap set_heap set_dummy set_leavesRef dummy].
  by rewrite Vector3_setScalar_length, Vector3_lerpVectors_length.
Qed.

Lemma updateOrnament_heap_length f t d i s :
  length (heap (updateOrnament f t d i s)) = length (heap s).
Proof.
  unfold updateOrnament, dummy_updateMatrix, dummy_scale_setScalar, dummy_rotation_set,
    dummy_position_lerpVectors.
  cbn [heap set_heap set_dummy set_ornamentsRef dummy].
  by rewrite Vector3_setScalar_length, Vector3_lerpVectors_length.
Qed.

Lemma updateRibbon_heap_length f t d i s :
  is_Some (heap s !! explodePos d) ->
  length (heap (updateRibbon f t d i s)) = S (length (heap s)).
Proof.
  intros [ep Hep].
  unfold updateRibbon, dummy_updateMatrix, dummy_scale_setScalar, dummy_rotation_set,
    dummy_position_lerpVectors.
  cbn [heap set_heap set_dummy set_ribbonRef dummy].
  rewrite Vector3_setScalar_length, Vector3_lerpVectors_length.
  unfold Vector3_multiplyScalar, Vector3_clone. rewrite Hep. cbn [fst snd].
  rewrite length_alter, length_app. simpl. lia.
Qed.

Lemma forEach_from_ribbon_heap_length s0 f t xs :
  forall i s,
    loop_footprint s0 s -> Forall (particle_ok s0) xs ->
    length (heap (forEach_from (updateRibbon f t) xs i s)) = (length (heap s) + length xs)%nat.
Proof.
  induction xs as [| d xs IH]; intros i s Hfp Hok; simpl; [lia |].
  apply Forall_cons in Hok as [Hd Hok].
  rewrite IH; [| by apply updateRibbon_footprint | done].
  rewrite updateRibbon_heap_length; [lia |].
  destruct (loop_footprint_facts _ _ _ Hfp Hd) as (_ & _ & _ & _ & -> & _ & He). done.
Qed.

(** One frame creates one vector per ribbon particle. *)
Lemma useFrame_heap_length f s :
  frame_inv s ->
  length (heap (useFrame f s)) = (length (heap s) + length (ribbonData s))%nat.
Proof.
  intros (Hwf & Hsc & _ & _).
  pose proof Hwf as (Hatt & _).
  destruct (useFrame_steps f s Hatt) as (group & star & Hgroup & _ & _ & ->).
  cbv zeta.
  set (t := THREE.lerp _ _ _).
  set (s2 := rotateGroup f group (handleTransition f s)).
  set (s3 := updateLeaves f t s2).
  set (s4 := updateOrnaments f t s3).
  assert (H02 : frame_footprint s s2).
  { eapply frame_footprint_trans; [apply handleTransition_footprint |].
    by eapply rotateGroup_footprint. }
  assert (H04 : frame_footprint s s4).
  { eapply frame_footprint_trans; [exact H02 |].
    eapply frame_footprint_trans; apply loop_footprint_frame.
    - apply updateLeaves_footprint, loop_footprint_refl.
    - apply updateOrnaments_footprint, loop_footprint_refl. }
  destruct (loop_ready_footprint s s4 Hwf Hsc H04) as [Hwf4 _].
  destruct (statics_data _ _ (proj1 H04)) as (_ & _ & Hr4 & _).
  assert (Hlen4 : length (heap s4) = length (heap s)).
  { unfold s4, updateOrnaments, forEach. cbv zeta. cbn [heap set_ornamentsRef].
    rewrite (forEach_from_keeps (fun s => length (heap s)))
      by apply updateOrnament_heap_length.
    unfold s3, updateLeaves, forEach. cbv zeta. cbn [heap set_leavesRef].
    rewrite (forEach_from_keeps (fun s => length (heap s)))
      by apply updateLeaf_heap_length.
    reflexivity. }
  unfold updateStar. cbv zeta. cbn [heap set_heap set_starRef].
  rewrite Vector3_setScalar_length, Vector3_lerpVectors_length.
  unfold updateRibbons, forEach. cbv zeta. cbn [heap set_ribbonRef].
  rewrite (forEach_from_ribbon_heap_length s4); [| apply loop_footprint_refl |].
  - by rewrite Hlen4, Hr4.
  - apply Forall_forall. intros d Hd. apply well_formed_particle_ok; [done |].
    apply elem_of_app. right. apply elem_of_app. by right.
Qed.

(** X19. The ribbon loop clones a vector for every particle on every
    frame, and nothing else creates vectors: after [n] frames a mounted
    component holds [n * COUNT_RIBBON] vectors more than it did at
    mounting. *)
Theorem frames_create_ribbon_clones (random : nat -> R) (history : list Frame) :
  length (heap (frames history (mount random)))
  = (length (heap (mount random)) + length history * COUNT_RIBBON)%nat.
Proof.
  assert (Hgen : forall fs s, frame_inv s -> length (ribbonData s) = COUNT_RIBBON ->
            length (heap (frames fs s)) = (length (heap s) + length fs * COUNT_RIBBON)%nat).
  { induction fs as [| f fs IH]; intros s Hinv Hlen; simpl; [lia |].
    rewrite IH.
    - rewrite useFrame_heap_length, Hlen by done. lia.
    - by apply (useFrame_effect f s).
    - destruct (statics_data _ _ (proj1 (useFrame_footprint f s))) as (_ & _ & -> & _).
      done. }
  apply Hgen; [apply mount_frame_inv |].
  by destruct (mount_spec random) as (_ & _ & _ & _ & _ & _ & _ & Hlen).
Qed.
